(** * Grid path search and task-collecting agent

    Shallow embedding of
    [Simulation of A(star) and IDA(star) Algorithms for Pathfinding/run.py]:
    the [Environment] grid, the two searches of [Agent] ([a_star_search],
    [ida_star_search]), the task selection [find_nearest_task], the movement
    [move] / [check_task_completion] and the simulation tick of [main].

    Python integers are unbounded, so they are [Z].  A position is a pair
    (column, row).  Dictionaries that are only looked up and updated are
    [gmap]s; [task_locations], whose enumeration order decides ties, is an
    association list in insertion order; sets are [gset]s. *)

From stdpp Require Import base numbers list list_numbers option strings gmap sets.

Local Open Scope Z_scope.

(** ** Outcomes of a run of Python code *)

(** A loop of the source is run with a step budget: [OutOfFuel] says the
    budget was too small to see the end of the run, [Raised] that the Python
    code raised an exception, [Return] that it returned. *)
Inductive outcome (A : Type) : Type :=
  | OutOfFuel
  | Raised
  | Return (a : A).
Arguments OutOfFuel {A}.
Arguments Raised {A}.
Arguments Return {A} a.

(** ** Environment *)

Definition pos : Type := Z * Z.

Record Environment : Type := mkEnvironment {
  columns : Z;
  rows : Z;
  task_locations : list (pos * Z);
  barrier_locations : gset pos
}.

(** [Environment.is_within_bounds] *)
Definition is_within_bounds (env : Environment) (x y : Z) : bool :=
  (0 <=? x) && (x <? columns env) && ((0 <=? y) && (y <? rows env)).

(** [Environment.is_barrier] *)
Definition is_barrier (env : Environment) (x y : Z) : bool :=
  bool_decide ((x, y) ∈ barrier_locations env).

(** ** Agent: heuristic and neighbours *)

(** [Agent.heuristic]: Manhattan distance. *)
Definition heuristic (a b : pos) : Z :=
  Z.abs (a.1 - b.1) + Z.abs (a.2 - b.2).

(** The [directions] table of [get_neighbors]: up, down, left, right. *)
Definition directions : list (Z * Z) := [(0, -1); (0, 1); (-1, 0); (1, 0)].

(** [Agent.get_neighbors] *)
Definition get_neighbors (env : Environment) (x y : Z) : list pos :=
  omap (fun d : Z * Z =>
          let nx := x + d.1 in
          let ny := y + d.2 in
          if is_within_bounds env nx ny && negb (is_barrier env nx ny)
          then Some (nx, ny) else None)
       directions.

(** ** The open set of A*: a [heapq] of (f, position) tuples

    [heapq] keeps a binary heap inside a Python list; the only observations
    the search makes are the emptiness test and [heappop], which returns the
    least tuple for Python's ordering of tuples (first component, then the
    position, itself a tuple).  The heap is the list of its entries, and
    [heappop] takes the least entry out. *)

Definition entry : Type := Z * pos.

Definition pos_ltb (a b : pos) : bool :=
  (a.1 <? b.1) || ((a.1 =? b.1) && (a.2 <? b.2)).

Definition entry_ltb (a b : entry) : bool :=
  (a.1 <? b.1) || ((a.1 =? b.1) && pos_ltb a.2 b.2).

Definition heappush (h : list entry) (e : entry) : list entry := e :: h.

Fixpoint heap_min (m : entry) (h : list entry) : entry :=
  match h with
  | [] => m
  | e :: h' => heap_min (if entry_ltb e m then e else m) h'
  end.

Fixpoint remove_one (m : entry) (h : list entry) : list entry :=
  match h with
  | [] => []
  | e :: h' => if decide (e = m) then h' else e :: remove_one m h'
  end.

Definition heappop (h : list entry) : option (entry * list entry) :=
  match h with
  | [] => None
  | e :: h' => let m := heap_min e h' in Some (m, remove_one m h)
  end.

(** ** A* search *)

Record astate : Type := mkAstate {
  open_set : list entry;
  came_from : gmap pos pos;
  g_score : gmap pos Z;
  f_score : gmap pos Z
}.

(** [Agent.reconstruct_path]: [path] is built backwards and reversed at the
    end; [acc] is the list of the nodes appended so far, last one first.  The
    [while current in came_from] loop gets a budget of iterations. *)
Fixpoint reconstruct_loop (fuel : nat) (cf : gmap pos pos) (current : pos)
    (acc : list pos) : outcome (list pos) :=
  match cf !! current with
  | None => Return (current :: acc)
  | Some prev =>
      match fuel with
      | O => OutOfFuel
      | S fuel' => reconstruct_loop fuel' cf prev (current :: acc)
      end
  end.

Definition reconstruct_path (fuel : nat) (cf : gmap pos pos) (current : pos)
    : outcome (list pos) :=
  reconstruct_loop fuel cf current [].

Section AStar.
Variable env : Environment.
Variable goal : pos.

(** Body of [for neighbor in self.get_neighbors( *current)]; [None] is the
    [KeyError] of [g_score[current]]. *)
Definition relax (current : pos) (st : astate) (neighbor : pos)
    : option astate :=
  match g_score st !! current with
  | None => None
  | Some gc =>
      let tentative_g_score := gc + 1 in
      let better :=
        match g_score st !! neighbor with
        | None => true
        | Some gn => tentative_g_score <? gn
        end in
      if better then
        let f := tentative_g_score + heuristic neighbor goal in
        Some {| open_set := heappush (open_set st) (f, neighbor);
                came_from := <[neighbor := current]> (came_from st);
                g_score := <[neighbor := tentative_g_score]> (g_score st);
                f_score := <[neighbor := f]> (f_score st) |}
      else Some st
  end.

Fixpoint relax_all (current : pos) (st : astate) (nbrs : list pos)
    : option astate :=
  match nbrs with
  | [] => Some st
  | n :: nbrs' =>
      match relax current st n with
      | None => None
      | Some st' => relax_all current st' nbrs'
      end
  end.

(** One turn of [while open_set]: what the loop does after a successful
    pop of [current]. *)
Inductive turn : Type :=
  | Stop (r : outcome (option (list pos)))
  | Continue (st : astate).

Definition a_star_body (path_fuel : nat) (st : astate) : turn :=
  match heappop (open_set st) with
  | None => Stop (Return None)
  | Some ((_, current), rest) =>
      if decide (current = goal) then
        match reconstruct_path path_fuel (came_from st) current with
        | Return p => Stop (Return (Some p))
        | OutOfFuel => Stop OutOfFuel
        | Raised => Stop Raised
        end
      else
        let st1 := {| open_set := rest; came_from := came_from st;
                      g_score := g_score st; f_score := f_score st |} in
        match relax_all current st1 (get_neighbors env current.1 current.2) with
        | None => Stop Raised
        | Some st' => Continue st'
        end
  end.

(** The [while open_set] loop; [fuel] bounds the number of pops: the test
    of the loop condition costs nothing, every pop one unit. *)
Fixpoint a_star_loop (path_fuel fuel : nat) (st : astate)
    : outcome (option (list pos)) :=
  match open_set st with
  | [] => Return None
  | _ :: _ =>
      match fuel with
      | O => OutOfFuel
      | S fuel' =>
          match a_star_body path_fuel st with
          | Stop r => r
          | Continue st' => a_star_loop path_fuel fuel' st'
          end
      end
  end.
End AStar.

(** The state before the loop: [(0, start)] pushed, [g_score = {start: 0}],
    [f_score = {start: h(start, goal)}]. *)
Definition a_star_init (start goal : pos) : astate :=
  {| open_set := heappush [] (0, start);
     came_from := ∅;
     g_score := {[ start := 0 ]};
     f_score := {[ start := heuristic start goal ]} |}.

(** Number of cells of the grid, plus one for a start outside of it. *)
Definition cell_bound (env : Environment) : nat :=
  S (Z.to_nat (columns env) * Z.to_nat (rows env)).

Definition a_star_fuel (env : Environment) : nat :=
  S (cell_bound env * cell_bound env).

(** [Agent.a_star_search], from position [start]. *)
Definition a_star_search (env : Environment) (start target : pos)
    : outcome (option (list pos)) :=
  a_star_loop env target (cell_bound env) (a_star_fuel env)
    (a_star_init start target).

(** ** IDA* search *)

(** What the inner [search] returns: the string ["FOUND"], or a number that
    is an [int] or [float('inf')]. *)
Inductive cost : Type :=
  | Finite (c : Z)
  | Infinite.

Inductive sresult : Type :=
  | FOUND
  | Pruned (c : cost).

(** [result < min_cost] on numbers that may be [float('inf')]. *)
Definition cost_ltb (a b : cost) : bool :=
  match a, b with
  | Finite x, Finite y => x <? y
  | Finite _, Infinite => true
  | Infinite, _ => false
  end.

Section IDAStar.
Variable env : Environment.
Variable goal : pos.

(** The [for neighbor in ...] loop of [search]; [rec] is the recursive
    call [search(path, g + 1, threshold)].  [path] is the one Python list
    shared by all calls: a call hands back the list as it left it, and
    [path.pop()] is [removelast]. *)
Fixpoint search_each (rec : list pos -> outcome (sresult * list pos))
    (nbrs : list pos) (path : list pos) (min_cost : cost)
    : outcome (sresult * list pos) :=
  match nbrs with
  | [] => Return (Pruned min_cost, path)
  | neighbor :: nbrs' =>
      if decide (neighbor ∈ path) then search_each rec nbrs' path min_cost
      else
        match rec (path ++ [neighbor]) with
        | Return (FOUND, path') => Return (FOUND, path')
        | Return (Pruned result, path') =>
            search_each rec nbrs' (removelast path')
              (if cost_ltb result min_cost then result else min_cost)
        | OutOfFuel => OutOfFuel
        | Raised => Raised
        end
  end.

(** The inner function [search(path, g, threshold)]; [depth] bounds the
    depth of the recursion, [path[-1]] of an empty list raises. *)
Fixpoint search (depth : nat) (path : list pos) (g threshold : Z)
    : outcome (sresult * list pos) :=
  match depth with
  | O => OutOfFuel
  | S depth' =>
      match last path with
      | None => Raised
      | Some current =>
          let f := g + heuristic current goal in
          if threshold <? f then Return (Pruned (Finite f), path)
          else if decide (current = goal) then Return (FOUND, path)
          else
            search_each (fun p => search depth' p (g + 1) threshold)
              (get_neighbors env current.1 current.2) path Infinite
      end
  end.

(** The [while True] loop; [fuel] bounds the number of calls of [search]
    from the loop. *)
Fixpoint ida_loop (depth fuel : nat) (path : list pos) (threshold : Z)
    : outcome (option (list pos)) :=
  match fuel with
  | O => OutOfFuel
  | S fuel' =>
      match search depth path 0 threshold with
      | Return (FOUND, path') => Return (Some path')
      | Return (Pruned Infinite, _) => Return None
      | Return (Pruned (Finite result), path') =>
          ida_loop depth fuel' path' result
      | OutOfFuel => OutOfFuel
      | Raised => Raised
      end
  end.
End IDAStar.

Definition ida_fuel (env : Environment) : nat := 2 * cell_bound env.

(** [Agent.ida_star_search], from position [start]. *)
Definition ida_star_search (env : Environment) (start target : pos)
    : outcome (option (list pos)) :=
  ida_loop env target (cell_bound env) (ida_fuel env) [start]
    (heuristic start target).

(** ** The agent *)

Record Agent : Type := mkAgent {
  position : pos;
  task_completed : Z;
  completed_tasks : list Z;
  path : list pos;
  moving : bool;
  cumulative_cost : Z
}.

(** The agent holds a reference to the environment and changes its
    [task_locations]: the two travel together. *)
Record World : Type := mkWorld {
  agent : Agent;
  environment : Environment
}.

(** [Agent.__init__] *)
Definition Agent_init : Agent :=
  {| position := (0, 0); task_completed := 0; completed_tasks := [];
     path := []; moving := false; cumulative_cost := 0 |}.

(** *** [task_locations] as a dictionary in insertion order *)

Fixpoint dict_get (k : pos) (d : list (pos * Z)) : option Z :=
  match d with
  | [] => None
  | (k', v) :: d' => if decide (k' = k) then Some v else dict_get k d'
  end.

(** [d.pop(k)] for a key that is present: the remaining entries keep their
    order. *)
Fixpoint dict_pop (k : pos) (d : list (pos * Z)) : list (pos * Z) :=
  match d with
  | [] => []
  | (k', v) :: d' => if decide (k' = k) then d' else (k', v) :: dict_pop k d'
  end.

(** Keys of a dictionary are unique. *)
Definition dict_wf (d : list (pos * Z)) : Prop := NoDup d.*1.

Definition set_tasks (env : Environment) (d : list (pos * Z)) : Environment :=
  {| columns := columns env; rows := rows env; task_locations := d;
     barrier_locations := barrier_locations env |}.

(** [Agent.check_task_completion] *)
Definition check_task_completion (w : World) : World :=
  let a := agent w in
  let position_tuple := position a in
  match dict_get position_tuple (task_locations (environment w)) with
  | Some task_number =>
      {| agent := {| position := position a;
                     task_completed := task_completed a + 1;
                     completed_tasks := completed_tasks a ++ [task_number];
                     path := path a; moving := moving a;
                     cumulative_cost := cumulative_cost a |};
         environment :=
           set_tasks (environment w)
             (dict_pop position_tuple (task_locations (environment w))) |}
  | None => w
  end.

(** [Agent.move] *)
Definition move (w : World) : World :=
  let a := agent w in
  match path a with
  | next_position :: rest =>
      check_task_completion
        {| agent := {| position := next_position;
                       task_completed := task_completed a;
                       completed_tasks := completed_tasks a;
                       path := rest; moving := moving a;
                       cumulative_cost := cumulative_cost a + 1 |};
           environment := environment w |}
  | [] =>
      {| agent := {| position := position a;
                     task_completed := task_completed a;
                     completed_tasks := completed_tasks a;
                     path := path a; moving := false;
                     cumulative_cost := cumulative_cost a |};
         environment := environment w |}
  end.

(** *** Task selection *)

(** The [if algorithm == "A*" ... elif algorithm == "IDA*" ...] of
    [find_nearest_task]; with any other string [path] is an unbound local
    at [if path:]. *)
Definition run_search (algorithm : string) (env : Environment)
    (start target : pos) : outcome (option (list pos)) :=
  if String.eqb algorithm "A*" then a_star_search env start target
  else if String.eqb algorithm "IDA*" then ida_star_search env start target
  else Raised.

(** Truth value of a list or [None]. *)
Definition truthy (p : option (list pos)) : bool :=
  match p with
  | Some (_ :: _) => true
  | _ => false
  end.

Definition len (p : option (list pos)) : nat :=
  match p with
  | Some l => length l
  | None => 0%nat
  end.

(** The [for task_position in ...task_locations.keys()] loop. *)
Fixpoint nearest_loop (algorithm : string) (env : Environment) (start : pos)
    (tasks : list (pos * Z)) (nearest_task : option pos)
    (shortest_path : option (list pos))
    : outcome (option pos * option (list pos)) :=
  match tasks with
  | [] => Return (nearest_task, shortest_path)
  | (task_position, _) :: tasks' =>
      match run_search algorithm env start task_position with
      | Return p =>
          if truthy p
             && (negb (truthy shortest_path)
                 || (len p <? len shortest_path)%nat)
          then nearest_loop algorithm env start tasks' (Some task_position) p
          else nearest_loop algorithm env start tasks' nearest_task
                 shortest_path
      | OutOfFuel => OutOfFuel
      | Raised => Raised
      end
  end.

(** The two assignments [self.path = ...; self.moving = True]. *)
Definition follow (a : Agent) (p : list pos) : Agent :=
  {| position := position a; task_completed := task_completed a;
     completed_tasks := completed_tasks a; path := p; moving := true;
     cumulative_cost := cumulative_cost a |}.

(** [Agent.find_nearest_task] *)
Definition find_nearest_task (algorithm : string) (w : World)
    : outcome World :=
  let a := agent w in
  match nearest_loop algorithm (environment w) (position a)
          (task_locations (environment w)) None None with
  | Return (_, shortest_path) =>
      if truthy shortest_path then
        Return {| agent := follow a (tail (default [] shortest_path));
                  environment := environment w |}
      else Return w
  | OutOfFuel => OutOfFuel
  | Raised => Raised
  end.

(** *** One tick of the simulation

    The [else] branch of the main loop, once the movement delay has
    elapsed: search when idle with tasks left, move when moving. *)
Inductive action : Type :=
  | Searching
  | Moving
  | Resting.

Definition tick_action (w : World) : action :=
  if negb (moving (agent w))
     && bool_decide (task_locations (environment w) <> [])
  then Searching
  else if moving (agent w) then Moving else Resting.

Definition tick (algorithm : string) (w : World) : outcome World :=
  match tick_action w with
  | Searching => find_nearest_task algorithm w
  | Moving => Return (move w)
  | Resting => Return w
  end.

Fixpoint ticks (algorithm : string) (n : nat) (w : World) : outcome World :=
  match n with
  | O => Return w
  | S n' =>
      match tick algorithm w with
      | Return w' => ticks algorithm n' w'
      | OutOfFuel => OutOfFuel
      | Raised => Raised
      end
  end.

(** ** Scenario set-up: [Environment.generate_random_locations]

    [draws] are the locations that the successive pairs of
    [random.randint] calls produce; the loop takes one per iteration and is
    still running ([OutOfFuel]) when they are used up.  [random.randint(0, n)]
    raises on an empty range. *)
Fixpoint random_locations_loop (draws : list pos) (count : Z)
    (exclude locations : gset pos) : outcome (gset pos) :=
  if Z.of_nat (size locations) <? count then
    match draws with
    | [] => OutOfFuel
    | location :: draws' =>
        random_locations_loop draws' count exclude
          (if decide (location ∈ exclude) then locations
           else {[ location ]} ∪ locations)
    end
  else Return locations.

Definition generate_random_locations (env : Environment) (draws : list pos)
    (count : Z) (exclude : gset pos) : outcome (gset pos) :=
  if bool_decide (0 < count)
     && ((columns env <=? 0) || (rows env <=? 0))
  then Raised
  else random_locations_loop draws count exclude ∅.

(** ** Specification vocabulary: moves, walks and routes *)

(** [b] is one move away from [a]: what [get_neighbors] enumerates. *)
Definition nbr (env : Environment) (a b : pos) : Prop :=
  b ∈ get_neighbors env a.1 a.2.

(** A walk of [n] moves. *)
Inductive walk (env : Environment) : pos -> pos -> nat -> Prop :=
  | walk_here a : walk env a a 0
  | walk_move a b c n : nbr env a b -> walk env b c n -> walk env a c (S n).

(** Every cell of the list is one move away from the one before. *)
Fixpoint chain (env : Environment) (p : list pos) : Prop :=
  match p with
  | a :: p' =>
      match p' with
      | b :: _ => nbr env a b /\ chain env p'
      | [] => True
      end
  | [] => True
  end.

(** A route: the list of cells that a search returns, [start] first and
    [goal] last. *)
Definition is_route (env : Environment) (start goal : pos) (p : list pos)
    : Prop :=
  head p = Some start /\ last p = Some goal /\ chain env p.

Definition reachable (env : Environment) (start goal : pos) : Prop :=
  exists p, is_route env start goal p.

(** Number of moves of a route. *)
Definition moves (p : list pos) : nat := length (tail p).

(** The cells of the grid. *)
Definition cells (env : Environment) : list pos :=
  x ← seqZ 0 (columns env); (fun y => (x, y)) <$> seqZ 0 (rows env).

Definition in_grid (env : Environment) (p : pos) : Prop :=
  is_within_bounds env p.1 p.2 = true.

(** ** Loop invariants of the A* search *)

Section AStarInvariants.
Variable env : Environment.
Variable start goal : pos.

(** What holds of the dictionaries at every point of the run. *)
Record a_star_basic (st : astate) : Prop := {
  basic_start : g_score st !! start = Some 0;
  basic_start_cf : came_from st !! start = None;
  basic_walk : forall n gn, g_score st !! n = Some gn ->
    0 <= gn /\ walk env start n (Z.to_nat gn);
  basic_bound : forall n gn, g_score st !! n = Some gn ->
    gn < Z.of_nat (size (dom (g_score st)));
  basic_dom : forall n, is_Some (g_score st !! n) ->
    n = start \/ in_grid env n;
  basic_parent : forall n gn, g_score st !! n = Some gn -> n <> start ->
    exists m gm, came_from st !! n = Some m /\ g_score st !! m = Some gm
                 /\ gm + 1 <= gn /\ nbr env m n;
  basic_open : forall f n, (f, n) ∈ open_set st ->
    n = start \/ exists gn, g_score st !! n = Some gn
                            /\ gn + heuristic n goal <= f
}.

(** [n] is waiting in the open set with a key that is not too large. *)
Definition queued (st : astate) (n : pos) (gn : Z) : Prop :=
  exists f, (f, n) ∈ open_set st /\ f <= gn + heuristic n goal.

(** All the neighbours in [ms] of [n] have been relaxed from [n]. *)
Definition relaxed (st : astate) (gn : Z) (ms : list pos) : Prop :=
  forall m, m ∈ ms ->
    exists gm, g_score st !! m = Some gm /\ gm <= gn + 1.

(** Every recorded node is queued or was expanded with its present score;
    [current], being expanded, has dealt with [done] so far. *)
Definition a_star_front (st : astate) (current : option pos)
    (done : list pos) : Prop :=
  forall n gn, g_score st !! n = Some gn ->
    queued st n gn
    \/ (n <> goal /\ relaxed st gn (get_neighbors env n.1 n.2))
    \/ (current = Some n /\ n <> goal /\ relaxed st gn done).

(** The state that [relax] builds when it records a better score. *)
Definition improved (c : pos) (st : astate) (m : pos) (gc : Z) : astate :=
  {| open_set := heappush (open_set st) (gc + 1 + heuristic m goal, m);
     came_from := <[m := c]> (came_from st);
     g_score := <[m := gc + 1]> (g_score st);
     f_score := <[m := gc + 1 + heuristic m goal]> (f_score st) |}.

(** Termination measure: entries waiting, plus the room left for the
    scores to go down. *)
Definition room (st : astate) (n : pos) : nat :=
  match g_score st !! n with
  | Some gn => Z.to_nat gn
  | None => cell_bound env
  end.

Definition a_star_measure (st : astate) : nat :=
  (length (open_set st) + sum_list (room st <$> cells env))%nat.

(** The states that the loop goes through. *)
Inductive a_star_state : astate -> Prop :=
  | a_star_state_init : a_star_state (a_star_init start goal)
  | a_star_state_turn st st' :
      a_star_state st ->
      a_star_body env goal (cell_bound env) st = Continue st' ->
      a_star_state st'.
End AStarInvariants.

(** ** What a search owes its caller *)

(** A route from [start] to [goal] that no route beats. *)
Definition shortest_route (env : Environment) (start goal : pos)
    (p : list pos) : Prop :=
  is_route env start goal p
  /\ forall q, is_route env start goal q -> (length p <= length q)%nat.

(** A shortest route when there is a route, [None] when there is none. *)
Definition search_post (env : Environment) (start goal : pos)
    (r : option (list pos)) : Prop :=
  match r with
  | Some p => shortest_route env start goal p
  | None => ~ reachable env start goal
  end.

(** ** Invariants of the IDA* search *)

(** [a <= b] on numbers that may be [float('inf')]. *)
Definition cost_le (a b : cost) : Prop :=
  match a, b with
  | Finite x, Finite y => x <= y
  | _, Infinite => True
  | Infinite, Finite _ => False
  end.

(** The shared [path] list at every call of [search]: a route from [start]
    that visits no cell twice. *)
Record ida_path (env : Environment) (start : pos) (p : list pos) : Prop := {
  ida_head : head p = Some start;
  ida_chain : chain env p;
  ida_nodup : NoDup p;
  ida_cells : forall n, n ∈ p -> n = start \/ in_grid env n
}.

(** No threshold goes beyond this. *)
Definition ida_bound (env : Environment) (start goal : pos) : Z :=
  heuristic start goal + 2 * (Z.of_nat (cell_bound env) - 1).

(** What [search] hands back: with the goal found, the list extended into
    a route to the goal of at most [threshold] moves; otherwise the list
    as it was, and a cost beyond the threshold. *)
Definition search_result (env : Environment) (start goal : pos)
    (p : list pos) (t : Z) (r : sresult) (p' : list pos) : Prop :=
  match r with
  | FOUND => (exists ext, p' = p ++ ext) /\ ida_path env start p'
             /\ last p' = Some goal /\ Z.of_nat (moves p') <= t
  | Pruned c => p' = p
                /\ forall f, c = Finite f -> t < f <= ida_bound env start goal
  end.

(** ** Vocabulary of the task selection *)

(** The two strings that the buttons of [main] pass on. *)
Definition known_algorithm (algorithm : string) : Prop :=
  algorithm = "A*"%string \/ algorithm = "IDA*"%string.

(** [p], found for the task at index [i], is the first shortest of the
    routes that the searches find for [tasks]: no route found is shorter,
    and those found for earlier tasks are longer. *)
Definition first_shortest (algorithm : string) (env : Environment)
    (start : pos) (tasks : list (pos * Z)) (i : nat) (p : list pos) : Prop :=
  forall j k v p', tasks !! j = Some (k, v) ->
    run_search algorithm env start k = Return (Some p') ->
    (length p <= length p')%nat /\ ((j < i)%nat -> (length p < length p')%nat).

(** ** Scenario set-up: [Environment.generate_tasks] and
    [Environment.__init__] *)

(** The [while True] loop of [generate_tasks]: draws until a location that
    is not yet a key of [tasks]; hands back the draws that are left. *)
Fixpoint draw_fresh (draws : list pos) (tasks : list (pos * Z))
    : outcome (pos * list pos) :=
  match draws with
  | [] => OutOfFuel
  | location :: draws' =>
      match dict_get location tasks with
      | None => Return (location, draws')
      | Some _ => draw_fresh draws' tasks
      end
  end.

(** The [for task_number in range(1, count + 1)] loop, with [n] iterations
    to go; a new key goes to the end of the dictionary. *)
Fixpoint tasks_loop (n : nat) (task_number : Z) (draws : list pos)
    (tasks : list (pos * Z)) : outcome (list (pos * Z) * list pos) :=
  match n with
  | O => Return (tasks, draws)
  | S n' =>
      match draw_fresh draws tasks with
      | Return (location, draws') =>
          tasks_loop n' (task_number + 1) draws'
            (tasks ++ [(location, task_number)])
      | OutOfFuel => OutOfFuel
      | Raised => Raised
      end
  end.

(** [Environment.generate_tasks]; as in [generate_random_locations],
    [random.randint] raises on a grid without cells. *)
Definition generate_tasks (env : Environment) (draws : list pos) (count : Z)
    : outcome (list (pos * Z) * list pos) :=
  if bool_decide (0 < count)
     && ((columns env <=? 0) || (rows env <=? 0))
  then Raised
  else tasks_loop (Z.to_nat count) 1 draws [].

(** [Environment.__init__]: the extent by floor division (which raises on
    a zero [grid_size]), then the tasks, then the barriers away from the
    tasks; the draws left by the tasks go to the barriers.  The fields
    [width], [height] and [grid_size], which only the drawing code reads,
    are not kept. *)
Definition Environment_init (width height grid_size num_tasks
    num_barriers : Z) (draws : list pos) : outcome Environment :=
  if decide (grid_size = 0) then Raised
  else
    let env0 := {| columns := width / grid_size; rows := height / grid_size;
                   task_locations := []; barrier_locations := ∅ |} in
    match generate_tasks env0 draws num_tasks with
    | Return (tasks, draws') =>
        match generate_random_locations env0 draws' num_barriers
                (list_to_set tasks.*1) with
        | Return barriers =>
            Return {| columns := columns env0; rows := rows env0;
                      task_locations := tasks;
                      barrier_locations := barriers |}
        | OutOfFuel => OutOfFuel
        | Raised => Raised
        end
    | OutOfFuel => OutOfFuel
    | Raised => Raised
    end.

(** ** Vocabulary of [reconstruct_path] *)

(** Every cell of the list is the [came_from] entry of the next one. *)
Fixpoint linked (cf : gmap pos pos) (p : list pos) : Prop :=
  match p with
  | a :: p' =>
      match p' with
      | b :: _ => cf !! b = Some a /\ linked cf p'
      | [] => True
      end
  | [] => True
  end.

(** ** Vocabulary of the collecting cycle *)

(** The world that [move] hands to [check_task_completion] after the step
    to [c]. *)
Definition stepped (w : World) (c : pos) (rest : list pos) : World :=
  {| agent := {| position := c;
                 task_completed := task_completed (agent w);
                 completed_tasks := completed_tasks (agent w);
                 path := rest; moving := moving (agent w);
                 cumulative_cost := cumulative_cost (agent w) + 1 |};
     environment := environment w |}.

(** The world once the agent has followed the route [p] to the task [v] on
    cell [k], has completed it and has come to rest there. *)
Definition arrive (w : World) (k : pos) (v : Z) (p : list pos) : World :=
  {| agent := {| position := k;
                 task_completed := task_completed (agent w) + 1;
                 completed_tasks := completed_tasks (agent w) ++ [v];
                 path := []; moving := false;
                 cumulative_cost :=
                   cumulative_cost (agent w) + Z.of_nat (moves p) |};
     environment :=
       set_tasks (environment w)
         (dict_pop k (task_locations (environment w))) |}.

(** A round of the cycle: the task selected, its number and the route
    taken to it. *)
Definition round : Type := pos * Z * list pos.

(** The rounds of a greedy collection from [w]: every round goes to an
    open task by a shortest route that no route to an open task beats,
    all measured in the world as it stands at the selection. *)
Fixpoint greedy_rounds (w : World) (rounds : list round) : Prop :=
  match rounds with
  | [] => task_locations (environment w) = []
  | (k, v, p) :: rounds' =>
      dict_get k (task_locations (environment w)) = Some v
      /\ shortest_route (environment w) (position (agent w)) k p
      /\ (forall k' v' p',
            (k', v') ∈ task_locations (environment w) ->
            is_route (environment w) (position (agent w)) k' p' ->
            (length p <= length p')%nat)
      /\ greedy_rounds (arrive w k v p) rounds'
  end.

Fixpoint after_rounds (w : World) (rounds : list round) : World :=
  match rounds with
  | [] => w
  | (k, v, p) :: rounds' => after_rounds (arrive w k v p) rounds'
  end.

(** Every open task can be reached from the agent's cell and from the
    cell of every other open task. *)
Definition all_reachable (w : World) : Prop :=
  forall s k v,
    s = position (agent w) \/ s ∈ (task_locations (environment w)).*1 ->
    (k, v) ∈ task_locations (environment w) ->
    reachable (environment w) s k.

(** Number of cells of the grid that are not in [exclude]. *)
Definition free_cells (env : Environment) (exclude : gset pos) : nat :=
  size ((list_to_set (cells env) : gset pos) ∖ exclude).

(** A location that [generate_random_locations] may keep. *)
Definition good_location (env : Environment) (exclude : gset pos) (x : pos)
    : Prop :=
  in_grid env x /\ x ∉ exclude.

(** ** Sample scenarios *)

Definition env33 : Environment :=
  {| columns := 3; rows := 3; task_locations := [((2, 2), 1)];
     barrier_locations := {[ (1, 0); (1, 1) ]} |}.

Definition wall33 : Environment :=
  {| columns := 3; rows := 3; task_locations := [((2, 2), 1)];
     barrier_locations := {[ (1, 2); (2, 1) ]} |}.

(** A 3 by 3 grid whose task at (2, 2) is walled off. *)
Definition walled_world : World :=
  {| agent := Agent_init; environment := wall33 |}.

(** A 3 by 3 grid with its one task on the cell where the agent starts. *)
Definition start_task_world : World :=
  {| agent := Agent_init;
     environment := {| columns := 3; rows := 3;
                       task_locations := [((0, 0), 1)];
                       barrier_locations := ∅ |} |}.

(** The same after the selection of that task: the path to follow is
    empty. *)
Definition start_task_world_moving : World :=
  {| agent := follow Agent_init [];
     environment := environment start_task_world |}.

(** A grid of one cell. *)
Definition env11 : Environment :=
  {| columns := 1; rows := 1; task_locations := [];
     barrier_locations := ∅ |}.

Example a_star_env33 :
  a_star_search env33 (0, 0) (2, 2)
  = Return (Some [(0, 0); (0, 1); (0, 2); (1, 2); (2, 2)]).
Proof. vm_compute. reflexivity. Qed.

Example ida_star_env33 :
  ida_star_search env33 (0, 0) (2, 2)
  = Return (Some [(0, 0); (0, 1); (0, 2); (1, 2); (2, 2)]).
Proof. vm_compute. reflexivity. Qed.

Example searches_wall33 :
  a_star_search wall33 (0, 0) (2, 2) = Return None
  /\ ida_star_search wall33 (0, 0) (2, 2) = Return None.
Proof. vm_compute. split; reflexivity. Qed.

Example same_cell :
  a_star_search env33 (0, 0) (0, 0) = Return (Some [(0, 0)])
  /\ ida_star_search env33 (0, 0) (0, 0) = Return (Some [(0, 0)]).
Proof. vm_compute. split; reflexivity. Qed.

(** * Proofs *)

(** ** Moves on the grid *)

Lemma nbr_iff env a b :
  nbr env a b <->
    (b = (a.1, a.2 - 1) \/ b = (a.1, a.2 + 1)
     \/ b = (a.1 - 1, a.2) \/ b = (a.1 + 1, a.2))
    /\ in_grid env b /\ b ∉ barrier_locations env.
Proof.
  unfold nbr, get_neighbors, in_grid, is_barrier.
  rewrite list_elem_of_omap. split.
  - intros (d & Hd & Hf).
    destruct (is_within_bounds env (a.1 + d.1) (a.2 + d.2)
              && negb (bool_decide ((a.1 + d.1, a.2 + d.2)
                                    ∈ barrier_locations env))) eqn:E;
      [|discriminate].
    injection Hf as <-. simpl.
    apply andb_true_iff in E as [E1 E2].
    apply negb_true_iff, bool_decide_eq_false in E2.
    split; [|by split].
    unfold directions in Hd.
    repeat (apply elem_of_cons in Hd as [-> | Hd]);
      [| | | |by apply elem_of_nil in Hd]; simpl.
    + left. f_equal; lia.
    + right; left. f_equal; lia.
    + right; right; left. f_equal; lia.
    + right; right; right. f_equal; lia.
  - intros (Hd & Hb & Hn).
    assert (exists d, d ∈ directions /\ b = (a.1 + d.1, a.2 + d.2))
      as (d & Hd' & ->).
    { unfold directions.
      destruct Hd as [-> | [-> | [-> | ->]]];
        [exists (0, -1)|exists (0, 1)|exists (-1, 0)|exists (1, 0)];
        (split; [set_solver|simpl; f_equal; lia]). }
    exists d. split; [done|]. simpl in Hb. rewrite Hb. simpl.
    rewrite (bool_decide_eq_false_2 _ Hn). done.
Qed.

Lemma nbr_in_grid env a b : nbr env a b -> in_grid env b.
Proof. intros H. apply nbr_iff in H. tauto. Qed.

Lemma heuristic_nbr env a b t :
  nbr env a b -> heuristic a t <= heuristic b t + 1.
Proof.
  intros H. apply nbr_iff in H as (Hd & _). unfold heuristic.
  destruct a as [x y], t as [p q]; simpl in *.
  destruct Hd as [-> | [-> | [-> | ->]]]; simpl; lia.
Qed.

Lemma heuristic_self a : heuristic a a = 0.
Proof. unfold heuristic. lia. Qed.

Lemma heuristic_nonneg a b : 0 <= heuristic a b.
Proof. unfold heuristic. lia. Qed.

(** The heuristic never overestimates the number of moves left. *)
Lemma heuristic_admissible env a t n :
  walk env a t n -> heuristic a t <= Z.of_nat n.
Proof.
  induction 1 as [a|a b c n Hab _ IH].
  - rewrite heuristic_self. lia.
  - pose proof (heuristic_nbr _ _ _ c Hab). lia.
Qed.

Lemma walk_snoc env a b c n :
  walk env a b n -> nbr env b c -> walk env a c (S n).
Proof.
  induction 1 as [a|a b' b n Hab _ IH]; intros Hbc.
  - eapply walk_move; [exact Hbc|constructor].
  - eapply walk_move; [exact Hab|auto].
Qed.

(** ** Routes and walks *)

Lemma route_walk env s t p : is_route env s t p -> walk env s t (moves p).
Proof.
  intros (Hh & Hl & Hc). revert s Hh Hc.
  induction p as [|a p IH]; intros s Hh Hc; [discriminate|].
  injection Hh as ->. destruct p as [|b p].
  - injection Hl as ->. constructor.
  - destruct Hc as [Hab Hc]. unfold moves; simpl.
    eapply walk_move; [exact Hab|].
    apply (IH Hl b); [done|exact Hc].
Qed.

Lemma walk_route env s t n :
  walk env s t n -> exists p, is_route env s t p /\ length p = S n.
Proof.
  induction 1 as [a|a b c n Hab _ (p & (Hh & Hl & Hc) & Hlen)].
  - exists [a]. by repeat split.
  - exists (a :: p). destruct p as [|b' p]; [discriminate|].
    injection Hh as ->. repeat split; simpl; auto.
Qed.

Lemma reachable_walk env s t : reachable env s t <-> exists n, walk env s t n.
Proof.
  split.
  - intros (p & Hp). eauto using route_walk.
  - intros (n & Hn). destruct (walk_route _ _ _ _ Hn) as (p & Hp & _).
    by exists p.
Qed.

Lemma moves_length (p : list pos) : p <> [] -> length p = S (moves p).
Proof. destruct p; [done|reflexivity]. Qed.

(** ** The heap *)

Lemma entry_ltb_le a b : entry_ltb a b = true -> a.1 <= b.1.
Proof. unfold entry_ltb. lia. Qed.

Lemma heap_min_spec m h :
  (heap_min m h = m \/ heap_min m h ∈ h)
  /\ (heap_min m h).1 <= m.1
  /\ forall e, e ∈ h -> (heap_min m h).1 <= e.1.
Proof.
  revert m. induction h as [|e h IH]; intros m; simpl.
  - split; [by left|]. split; [lia|]. intros e He. by apply elem_of_nil in He.
  - destruct (IH (if entry_ltb e m then e else m)) as (Hin & Hle & Hall).
    destruct (entry_ltb e m) eqn:E.
    + apply entry_ltb_le in E. split; [|split].
      * right. destruct Hin as [-> | Hin]; [left|by right].
      * lia.
      * intros e' [-> | He']%elem_of_cons; auto.
    + assert (m.1 <= e.1) by (unfold entry_ltb in E; lia).
      split; [|split].
      * destruct Hin as [-> | Hin]; [by left|right; by right].
      * lia.
      * intros e' [-> | He']%elem_of_cons; [lia|auto].
Qed.

Lemma remove_one_sub m h e : e ∈ remove_one m h -> e ∈ h.
Proof.
  induction h as [|x h IH]; simpl; [done|].
  destruct (decide (x = m)); [by right|].
  intros [-> | He]%elem_of_cons; [left|right; auto].
Qed.

Lemma remove_one_keep m h e : e ∈ h -> e <> m -> e ∈ remove_one m h.
Proof.
  induction h as [|x h IH]; simpl; [done|].
  intros [-> | He]%elem_of_cons Hne.
  - destruct (decide (x = m)); [done|left].
  - destruct (decide (x = m)); [done|right; auto].
Qed.

Lemma remove_one_length m h : m ∈ h -> length h = S (length (remove_one m h)).
Proof.
  induction h as [|x h IH]; simpl; [by intros ?%elem_of_nil|].
  destruct (decide (x = m)); [done|].
  intros [-> | He]%elem_of_cons; [done|]. simpl. by rewrite <- IH.
Qed.

Lemma heappop_spec h e rest :
  heappop h = Some (e, rest) ->
  e ∈ h
  /\ (forall e', e' ∈ h -> e.1 <= e'.1)
  /\ (forall e', e' ∈ rest -> e' ∈ h)
  /\ (forall e', e' ∈ h -> e' = e \/ e' ∈ rest)
  /\ length h = S (length rest).
Proof.
  destruct h as [|x h]; [discriminate|]. unfold heappop.
  intros [= <- <-].
  destruct (heap_min_spec x h) as (Hin & Hle & Hall).
  assert (heap_min x h ∈ x :: h) as Hm.
  { destruct Hin as [-> | Hin]; [left|by right]. }
  split; [done|]. split; [|split; [|split]].
  - intros e' [-> | He']%elem_of_cons; auto.
  - intros e'. apply (remove_one_sub _ (x :: h)).
  - intros e' He'. destruct (decide (e' = heap_min x h)); [by left|right].
    by apply (remove_one_keep _ (x :: h)).
  - by apply (remove_one_length _ (x :: h)).
Qed.

Lemma heappop_None h : heappop h = None <-> h = [].
Proof. destruct h; simpl; split; congruence. Qed.

(** ** The cells of the grid *)

Lemma elem_of_cells env p : p ∈ cells env <-> in_grid env p.
Proof.
  unfold cells, in_grid, is_within_bounds. rewrite list_elem_of_bind.
  destruct p as [x y]; simpl. split.
  - intros (x' & (y' & [= -> ->] & Hy)%list_elem_of_fmap & Hx).
    apply elem_of_seqZ in Hx, Hy. lia.
  - intros H. exists x. split.
    + apply list_elem_of_fmap. exists y. split; [done|].
      apply elem_of_seqZ. lia.
    + apply elem_of_seqZ. lia.
Qed.

Lemma length_pairs (l k : list Z) :
  length (x ← l; (fun y => (x, y)) <$> k) = (length l * length k)%nat.
Proof.
  induction l as [|x l IH]; [done|].
  rewrite bind_cons, length_app, length_fmap, IH. simpl. lia.
Qed.

Lemma length_cells env :
  length (cells env) = (Z.to_nat (columns env) * Z.to_nat (rows env))%nat.
Proof. unfold cells. by rewrite length_pairs, !length_seqZ. Qed.

Lemma size_list_to_set_le (l : list pos) :
  (size (list_to_set l : gset pos) <= length l)%nat.
Proof.
  induction l as [|x l IH]; simpl.
  - change (size (∅ : gset pos) <= 0)%nat. by rewrite size_empty.
  - rewrite size_union_alt, size_singleton.
    assert (size ((list_to_set l : gset pos) ∖ {[x]})
            <= size (list_to_set l : gset pos))%nat as Hd
      by (apply subseteq_size; set_solver).
    lia.
Qed.

Lemma size_bounded (env : Environment) (start : pos) (X : gset pos) :
  (forall n, n ∈ X -> n = start \/ in_grid env n) ->
  (size X <= cell_bound env)%nat.
Proof.
  intros H. unfold cell_bound. rewrite <- length_cells.
  assert (X ⊆ {[start]} ∪ list_to_set (cells env)) as Hsub.
  { intros n Hn. destruct (H n Hn) as [-> | Hg]; [set_solver|].
    apply elem_of_union_r, elem_of_list_to_set, elem_of_cells, Hg. }
  apply subseteq_size in Hsub.
  rewrite size_union_alt, size_singleton in Hsub.
  assert (size ((list_to_set (cells env) : gset pos) ∖ {[start]})
          <= size (list_to_set (cells env) : gset pos))%nat as Hd
    by (apply subseteq_size; set_solver).
  pose proof (size_list_to_set_le (cells env)). lia.
Qed.

(** ** A*: one relaxation *)

Section AStarProofs.
Variable env : Environment.
Variable start goal : pos.

Abbreviation basic := (a_star_basic env start goal).
Abbreviation front := (a_star_front env goal).
Abbreviation measure := (a_star_measure env).
Abbreviation improved := (improved goal).
Abbreviation shortest_route := (shortest_route env start goal).
Abbreviation a_star_post := (search_post env start goal).

Lemma relax_cases c st m gc :
  g_score st !! c = Some gc ->
  (relax goal c st m = Some st
   /\ exists gm, g_score st !! m = Some gm /\ gm <= gc + 1)
  \/ (relax goal c st m = Some (improved c st m gc)
      /\ (g_score st !! m = None
          \/ exists gm, g_score st !! m = Some gm /\ gc + 1 < gm)).
Proof.
  intros Hc. unfold relax, improved. rewrite Hc.
  destruct (g_score st !! m) as [gm|] eqn:Hm.
  - destruct (gc + 1 <? gm) eqn:E.
    + right. split; [done|]. right. exists gm. split; [done|lia].
    + left. split; [done|]. exists gm. split; [done|lia].
  - right. split; [done|by left].
Qed.

Lemma improved_basic c st m gc :
  basic st -> g_score st !! c = Some gc -> nbr env c m ->
  (g_score st !! m = None
   \/ exists gm, g_score st !! m = Some gm /\ gc + 1 < gm) ->
  basic (improved c st m gc).
Proof.
  intros B Hc Hcm Hm.
  destruct (basic_walk _ _ _ _ B c gc Hc) as [Hgc Hwc].
  assert (m <> start) as Hms.
  { intros ->. rewrite (basic_start _ _ _ _ B) in Hm.
    destruct Hm as [?|(gm & [= <-] & ?)]; [done|lia]. }
  assert (m <> c) as Hmc.
  { intros ->. rewrite Hc in Hm.
    destruct Hm as [?|(gm & [= <-] & ?)]; [done|lia]. }
  assert (forall n gn, g_score st !! n = Some gn ->
            exists gn', g_score (improved c st m gc) !! n = Some gn'
                        /\ gn' <= gn) as Hmono.
  { intros n gn Hn. simpl. destruct (decide (m = n)) as [->|Hne].
    - rewrite lookup_insert_eq. eexists; split; [done|].
      rewrite Hn in Hm. destruct Hm as [?|(gm & [= <-] & ?)]; [done|lia].
    - rewrite lookup_insert_ne by done. eexists; split; [done|lia]. }
  split; simpl.
  - rewrite lookup_insert_ne by done. apply B.
  - rewrite lookup_insert_ne by done. apply B.
  - intros n gn. destruct (decide (m = n)) as [<-|Hne].
    + rewrite lookup_insert_eq. intros [= <-]. split; [lia|].
      replace (Z.to_nat (gc + 1)) with (S (Z.to_nat gc)) by lia.
      by eapply walk_snoc.
    + rewrite lookup_insert_ne by done. apply B.
  - intros n gn. rewrite dom_insert_L.
    assert (size (dom (g_score st)) <= size ({[m]} ∪ dom (g_score st)))%nat
      as Hsz by (apply subseteq_size; set_solver).
    destruct (decide (m = n)) as [<-|Hne].
    + rewrite lookup_insert_eq. intros [= <-].
      pose proof (basic_bound _ _ _ _ B c gc Hc) as Hb.
      destruct Hm as [Hm|(gm & Hm & Hlt)].
      * rewrite size_union, size_singleton; [lia|].
        apply not_elem_of_dom in Hm. set_solver.
      * pose proof (basic_bound _ _ _ _ B m gm Hm). lia.
    + rewrite lookup_insert_ne by done. intros Hn.
      pose proof (basic_bound _ _ _ _ B n gn Hn). lia.
  - intros n. destruct (decide (m = n)) as [<-|Hne].
    + intros _. right. by eapply nbr_in_grid.
    + rewrite lookup_insert_ne by done. apply B.
  - intros n gn. destruct (decide (m = n)) as [<-|Hne].
    + rewrite !lookup_insert_eq. intros [= <-] _.
      exists c, gc. rewrite lookup_insert_ne by done.
      repeat split; [done|lia|done].
    + rewrite !lookup_insert_ne by done. intros Hn Hns.
      destruct (basic_parent _ _ _ _ B n gn Hn Hns)
        as (p & gp & Hcf & Hp & Hle & Hpn).
      destruct (Hmono p gp Hp) as (gp' & Hp' & Hle').
      exists p, gp'. simpl in Hp'. repeat split; [done|done|lia|done].
  - intros f n [[= -> ->]|Hin]%elem_of_cons.
    + right. exists (gc + 1). rewrite lookup_insert_eq. split; [done|lia].
    + destruct (basic_open _ _ _ _ B f n Hin) as [->|(gn & Hn & Hle)];
        [by left|right].
      destruct (Hmono n gn Hn) as (gn' & Hn' & Hle').
      exists gn'. simpl in Hn'. split; [done|lia].
Qed.

Lemma relax_basic c st m gc :
  basic st -> g_score st !! c = Some gc -> nbr env c m ->
  exists st', relax goal c st m = Some st' /\ basic st'
              /\ g_score st' !! c = Some gc.
Proof.
  intros B Hc Hcm.
  destruct (relax_cases c st m gc Hc) as [[-> _]|[-> Hm]].
  - by exists st.
  - exists (improved c st m gc). split; [done|].
    split; [by apply improved_basic|]. simpl.
    rewrite lookup_insert_ne; [done|].
    intros ->. rewrite Hc in Hm.
    destruct Hm as [?|(gm & [= <-] & ?)]; [done|lia].
Qed.
Lemma relax_front c st m gc done :
  front st (Some c) done -> g_score st !! c = Some gc -> c <> goal ->
  forall st', relax goal c st m = Some st' ->
  front st' (Some c) (m :: done).
Proof.
  intros F Hc Hcg st' Hr.
  destruct (relax_cases c st m gc Hc) as [[Hr' Hm]|[Hr' Hm]];
    rewrite Hr' in Hr; injection Hr as <-.
  - intros n gn Hn. destruct (F n gn Hn) as [Q|[E|(Hcur & Hng & R)]];
      [by left|by right; left|right; right].
    split; [done|]. split; [done|]. injection Hcur as <-.
    rewrite Hc in Hn. injection Hn as <-.
    intros m' [-> | Hm']%elem_of_cons; [done|auto].
  - assert (forall (ms : list pos) g0, relaxed st g0 ms ->
              relaxed (improved c st m gc) g0 ms) as Hrel.
    { intros ms g0 R m' Hm'. destruct (R m' Hm') as (gm' & Hgm' & Hle).
      simpl. destruct (decide (m = m')) as [<-|Hne].
      - rewrite lookup_insert_eq. eexists; split; [done|].
        rewrite Hgm' in Hm.
        destruct Hm as [?|(gm & [= <-] & ?)]; [done|lia].
      - rewrite lookup_insert_ne by done. eauto. }
    intros n gn. simpl. destruct (decide (m = n)) as [<-|Hne].
    + rewrite lookup_insert_eq. intros [= <-]. left.
      exists (gc + 1 + heuristic m goal). split; [left|lia].
    + rewrite lookup_insert_ne by done. intros Hn.
      destruct (F n gn Hn) as [(f & Hf & Hle)|[(Hng & R)|(Hcur & Hng & R)]].
      * left. exists f. split; [by right|done].
      * right; left. split; [done|]. by apply Hrel.
      * right; right. split; [done|]. split; [done|].
        injection Hcur as <-. rewrite Hc in Hn. injection Hn as <-.
        intros m' [-> | Hm']%elem_of_cons.
        -- exists (gc + 1). simpl. rewrite lookup_insert_eq.
           split; [done|lia].
        -- by apply (Hrel done gc R).
Qed.

Lemma sum_list_le (f g : pos -> nat) (l : list pos) :
  (forall n, f n <= g n)%nat ->
  (sum_list (f <$> l) <= sum_list (g <$> l))%nat.
Proof.
  intros H. induction l as [|x l IH]; csimpl; [lia|].
  specialize (H x). lia.
Qed.

Lemma sum_list_lt (f g : pos -> nat) (l : list pos) (m : pos) :
  m ∈ l -> (forall n, f n <= g n)%nat -> (f m < g m)%nat ->
  (sum_list (f <$> l) < sum_list (g <$> l))%nat.
Proof.
  intros Hm H Hlt. induction l as [|x l IH]; [by apply elem_of_nil in Hm|].
  csimpl. apply elem_of_cons in Hm as [<-|Hm].
  - pose proof (sum_list_le f g l H). lia.
  - specialize (IH Hm). specialize (H x). lia.
Qed.

Lemma sum_list_bound (f : pos -> nat) (l : list pos) (b : nat) :
  (forall n, f n <= b)%nat -> (sum_list (f <$> l) <= length l * b)%nat.
Proof.
  intros H. induction l as [|x l IH]; csimpl; [lia|].
  specialize (H x). lia.
Qed.

Lemma basic_size st :
  basic st -> (size (dom (g_score st)) <= cell_bound env)%nat.
Proof.
  intros B. apply (size_bounded env start).
  intros n Hn%elem_of_dom. by apply (basic_dom _ _ _ _ B).
Qed.

Lemma relax_measure c st m gc :
  basic st -> g_score st !! c = Some gc -> nbr env c m ->
  forall st', relax goal c st m = Some st' ->
  (measure st' <= measure st)%nat.
Proof.
  intros B Hc Hcm st' Hr.
  destruct (relax_cases c st m gc Hc) as [[Hr' Hm]|[Hr' Hm]];
    rewrite Hr' in Hr; injection Hr as <-; [done|].
  pose proof (improved_basic c st m gc B Hc Hcm Hm) as B'.
  destruct (basic_walk _ _ _ _ B c gc Hc) as [Hgc _].
  unfold a_star_measure. simpl.
  assert (sum_list (room env (improved c st m gc) <$> cells env)
          < sum_list (room env st <$> cells env))%nat; [|lia].
  apply (sum_list_lt _ _ _ m).
  - by apply elem_of_cells, (nbr_in_grid _ c).
  - intros n. unfold room. simpl.
    destruct (decide (m = n)) as [<-|Hne].
    + rewrite lookup_insert_eq.
      destruct Hm as [->|(gm & -> & Hlt)]; [|lia].
      pose proof (basic_bound _ _ _ _ B' m (gc + 1)) as Hb. simpl in Hb.
      rewrite lookup_insert_eq in Hb. specialize (Hb eq_refl).
      pose proof (basic_size _ B') as Hs. simpl in Hs. lia.
    + by rewrite lookup_insert_ne.
  - unfold room. simpl. rewrite lookup_insert_eq.
    destruct Hm as [->|(gm & -> & Hlt)]; [|lia].
    pose proof (basic_bound _ _ _ _ B' m (gc + 1)) as Hb. simpl in Hb.
    rewrite lookup_insert_eq in Hb. specialize (Hb eq_refl).
    pose proof (basic_size _ B') as Hs. simpl in Hs. lia.
Qed.

(** The whole [for] loop over the neighbours of [c]. *)
Lemma relax_all_inv c gc nbrs :
  c <> goal -> (forall m, m ∈ nbrs -> nbr env c m) ->
  forall st done,
    basic st -> front st (Some c) done -> g_score st !! c = Some gc ->
    exists st', relax_all goal c st nbrs = Some st'
                /\ basic st' /\ front st' (Some c) (rev nbrs ++ done)
                /\ (measure st' <= measure st)%nat.
Proof.
  intros Hcg. induction nbrs as [|m nbrs IH]; intros Hn st done B F Hc.
  - exists st. split; [done|]. split; [done|]. split; [exact F|lia].
  - assert (nbr env c m) as Hcm by (apply Hn; left).
    destruct (relax_basic c st m gc B Hc Hcm) as (st1 & Hr & B1 & Hc1).
    pose proof (relax_front c st m gc done F Hc Hcg st1 Hr) as F1.
    pose proof (relax_measure c st m gc B Hc Hcm st1 Hr) as M1.
    destruct (IH (fun m' Hm' => Hn m' (list_elem_of_further _ _ _ Hm'))
                st1 (m :: done) B1 F1 Hc1) as (st' & Hr' & B' & F' & M').
    exists st'. simpl. rewrite Hr. split; [done|]. split; [done|].
    split; [|lia]. by rewrite <- app_assoc.
Qed.
(** *** Reconstruction of the route *)

Lemma chain_snoc (p : list pos) m n :
  chain env p -> last p = Some m -> nbr env m n -> chain env (p ++ [n]).
Proof.
  induction p as [|a p IH]; [done|]. intros Hc Hl Hmn.
  destruct p as [|b p].
  - injection Hl as ->. by split.
  - destruct Hc as [Hab Hc]. split; [done|]. by apply IH.
Qed.

Lemma route_snoc s m n (p : list pos) :
  is_route env s m p -> nbr env m n -> is_route env s n (p ++ [n]).
Proof.
  intros (Hh & Hl & Hc) Hmn. split; [|split].
  - destruct p; [done|exact Hh].
  - by rewrite last_snoc.
  - by eapply chain_snoc.
Qed.

Lemma reconstruct_route st :
  basic st ->
  forall fuel n gn acc,
    g_score st !! n = Some gn -> (Z.to_nat gn <= fuel)%nat ->
    exists p, reconstruct_loop fuel (came_from st) n acc = Return (p ++ acc)
              /\ is_route env start n p
              /\ (length p <= S (Z.to_nat gn))%nat.
Proof.
  intros B. induction fuel as [|fuel IH]; intros n gn acc Hn Hfuel.
  - destruct (decide (n = start)) as [->|Hns].
    + exists [start]. simpl. rewrite (basic_start_cf _ _ _ _ B).
      repeat split; simpl; lia.
    + destruct (basic_parent _ _ _ _ B n gn Hn Hns)
        as (m & gm & _ & Hm & Hle & _).
      destruct (basic_walk _ _ _ _ B m gm Hm) as [? _]. lia.
  - destruct (decide (n = start)) as [->|Hns].
    + exists [start]. simpl. rewrite (basic_start_cf _ _ _ _ B).
      repeat split; simpl; lia.
    + destruct (basic_parent _ _ _ _ B n gn Hn Hns)
        as (m & gm & Hcf & Hm & Hle & Hmn).
      destruct (basic_walk _ _ _ _ B m gm Hm) as [Hgm _].
      destruct (IH m gm (n :: acc) Hm ltac:(lia)) as (p & Hp & Hr & Hlen).
      exists (p ++ [n]). simpl. rewrite Hcf, Hp, <- app_assoc.
      split; [done|]. split; [by eapply route_snoc|].
      rewrite length_app. simpl. lia.
Qed.

(** *** The frontier: a node of every walk to the goal is waiting *)

Lemma frontier st :
  front st None [] ->
  forall a b j, walk env a b j ->
  forall ga, g_score st !! a = Some ga ->
    (exists gb, g_score st !! b = Some gb /\ gb <= ga + Z.of_nat j)
    \/ (exists n gn f j', (f, n) ∈ open_set st
          /\ g_score st !! n = Some gn
          /\ f <= gn + heuristic n goal
          /\ walk env n b j' /\ gn + Z.of_nat j' <= ga + Z.of_nat j).
Proof.
  intros F a b j W.
  induction W as [a|a a' b j Haa' W IH]; intros ga Ha.
  - left. exists ga. split; [done|lia].
  - destruct (F a ga Ha) as [(f & Hf & Hle)|[(_ & R)|(? & _)]];
      [| |done].
    + right. exists a, ga, f, (S j). repeat split; try done.
      by eapply walk_move.
    + destruct (R a' Haa') as (ga' & Ha' & Hle).
      destruct (IH ga' Ha') as [(gb & Hb & Hle')|
                                (n & gn & f & j' & H1 & H2 & H3 & H4 & H5)].
      * left. exists gb. split; [done|lia].
      * right. exists n, gn, f, j'. repeat split; try done. lia.
Qed.

(** When the goal is popped its recorded score is the least number of
    moves. *)
Lemma popped_goal_optimal st f rest :
  basic st -> front st None [] ->
  heappop (open_set st) = Some ((f, goal), rest) ->
  exists gg, g_score st !! goal = Some gg
             /\ forall k, walk env start goal k -> gg <= Z.of_nat k.
Proof.
  intros B F Hpop.
  destruct (heappop_spec _ _ _ Hpop) as (Hin & Hmin & _).
  assert (exists gg, g_score st !! goal = Some gg
                     /\ (goal = start \/ gg <= f)) as (gg & Hg & Hgf).
  { destruct (basic_open _ _ _ _ B f goal Hin) as [->|(gn & Hn & Hle)].
    - exists 0. split; [apply B|by left].
    - exists gn. split; [done|right].
      rewrite heuristic_self in Hle. lia. }
  exists gg. split; [done|]. intros k W.
  destruct Hgf as [->|Hgf].
  { rewrite (basic_start _ _ _ _ B) in Hg. injection Hg as <-. lia. }
  destruct (frontier st F start goal k W 0 (basic_start _ _ _ _ B))
    as [(gb & Hb & Hle)|(n & gn & f' & j' & H1 & H2 & H3 & H4 & H5)].
  - rewrite Hg in Hb. injection Hb as <-. lia.
  - pose proof (Hmin _ H1) as Hff. simpl in Hff.
    pose proof (heuristic_admissible _ _ _ _ H4). lia.
Qed.

(** *** One turn of the loop *)

Lemma a_star_body_inv st :
  basic st -> front st None [] -> open_set st <> [] ->
  (exists p, a_star_body env goal (cell_bound env) st
             = Stop (Return (Some p)) /\ shortest_route p)
  \/ (exists st', a_star_body env goal (cell_bound env) st = Continue st'
                  /\ basic st' /\ front st' None []
                  /\ (measure st' < measure st)%nat).
Proof.
  intros B F Hne. unfold a_star_body.
  destruct (heappop (open_set st)) as [[[f c] rest]|] eqn:Hpop;
    [|by apply heappop_None in Hpop].
  destruct (heappop_spec _ _ _ Hpop) as (Hin & Hmin & Hsub & Hsplit & Hlen).
  destruct (decide (c = goal)) as [->|Hcg].
  - left.
    destruct (popped_goal_optimal st f rest B F Hpop) as (gg & Hg & Hopt).
    pose proof (basic_bound _ _ _ _ B goal gg Hg) as Hb.
    pose proof (basic_size st B) as Hs.
    destruct (reconstruct_route st B (cell_bound env) goal gg [] Hg
                ltac:(lia)) as (p & Hp & Hr & Hl).
    rewrite app_nil_r in Hp. unfold reconstruct_path. rewrite Hp.
    exists p. split; [done|]. split; [done|].
    intros q Hq. pose proof (route_walk _ _ _ _ Hq) as Wq.
    specialize (Hopt _ Wq).
    destruct (basic_walk _ _ _ _ B goal gg Hg) as [Hgg _].
    rewrite (moves_length q); [lia|].
    destruct Hq as (Hh & _). by destruct q.
  - right.
    set (st1 := {| open_set := rest; came_from := came_from st;
                   g_score := g_score st; f_score := f_score st |}).
    assert (exists gc, g_score st !! c = Some gc) as (gc & Hc).
    { destruct (basic_open _ _ _ _ B f c Hin) as [->|(gn & Hn & _)];
        [exists 0; apply B|by exists gn]. }
    assert (basic st1) as B1.
    { destruct B. split; simpl; auto. }
    assert (front st1 (Some c) []) as F1.
    { intros n gn Hn.
      destruct (F n gn Hn) as [(f' & Hf' & Hle)|[E|(? & _)]];
        [|by right; left|done].
      destruct (Hsplit _ Hf') as [[= -> ->]|Hr].
      - right; right. split; [done|]. split; [done|].
        intros m Hm. by apply elem_of_nil in Hm.
      - left. by exists f'. }
    destruct (relax_all_inv c gc (get_neighbors env c.1 c.2) Hcg
                (fun m Hm => Hm) st1 [] B1 F1 Hc)
      as (st' & Hr & B' & F' & M').
    fold st1. rewrite Hr. exists st'. split; [done|]. split; [done|].
    split.
    + intros n gn Hn.
      destruct (F' n gn Hn) as [Q|[E|(Hcur & Hng & R)]];
        [by left|by right; left|right; left].
      injection Hcur as <-. split; [done|].
      intros m Hm. apply R. rewrite app_nil_r.
      by apply list_elem_of_In, in_rev, list_elem_of_In in Hm.
    + unfold a_star_measure, room in *. simpl in M'. lia.
Qed.

(** *** The loop *)

Lemma a_star_loop_correct fuel :
  forall st, basic st -> front st None [] -> (measure st <= fuel)%nat ->
  exists r, a_star_loop env goal (cell_bound env) fuel st = Return r
            /\ a_star_post r.
Proof.
  induction fuel as [|fuel IH]; intros st B F M.
  - destruct (open_set st) as [|e h] eqn:Ho.
    2:{ unfold a_star_measure in M. rewrite Ho in M. simpl in M. lia. }
    exists None. simpl. rewrite Ho. split; [done|].
    intros (k & W)%reachable_walk.
    destruct (frontier st F start goal k W 0 (basic_start _ _ _ _ B))
      as [(gb & Hb & _)|(n & gn & f' & j' & H1 & _)].
    + destruct (F goal gb Hb) as [(f & Hf & _)|[(? & _)|(? & _)]];
        [|done|done].
      rewrite Ho in Hf. by apply elem_of_nil in Hf.
    + rewrite Ho in H1. by apply elem_of_nil in H1.
  - destruct (open_set st) as [|e h] eqn:Ho.
    + exists None. simpl. rewrite Ho. split; [done|].
      intros (k & W)%reachable_walk.
      destruct (frontier st F start goal k W 0 (basic_start _ _ _ _ B))
        as [(gb & Hb & _)|(n & gn & f' & j' & H1 & _)].
      * destruct (F goal gb Hb) as [(f & Hf & _)|[(? & _)|(? & _)]];
          [|done|done].
        rewrite Ho in Hf. by apply elem_of_nil in Hf.
      * rewrite Ho in H1. by apply elem_of_nil in H1.
    + simpl. rewrite Ho.
      destruct (a_star_body_inv st B F) as [(p & Hb & Hp)|
                                           (st' & Hb & B' & F' & M')].
      * by rewrite Ho.
      * rewrite Hb. exists (Some p). by split.
      * rewrite Hb. apply IH; [done|done|lia].
Qed.

Lemma a_star_init_basic : basic (a_star_init start goal).
Proof.
  split; simpl.
  - apply lookup_singleton_eq.
  - apply lookup_empty.
  - intros n gn [<- <-]%lookup_singleton_Some. split; [lia|constructor].
  - intros n gn [<- <-]%lookup_singleton_Some.
    rewrite dom_singleton_L, size_singleton. lia.
  - intros n [gn [<- <-]%lookup_singleton_Some]. by left.
  - intros n gn [<- <-]%lookup_singleton_Some. done.
  - intros f n [[= -> ->]|[]%elem_of_nil]%elem_of_cons. by left.
Qed.

Lemma a_star_init_front : front (a_star_init start goal) None [].
Proof.
  intros n gn Hn. simpl in Hn.
  apply lookup_singleton_Some in Hn as [<- <-]. left. exists 0.
  split; [left|]. pose proof (heuristic_nonneg start goal). lia.
Qed.

Lemma a_star_init_measure :
  (measure (a_star_init start goal) <= a_star_fuel env)%nat.
Proof.
  unfold a_star_measure, a_star_fuel. simpl.
  pose proof (sum_list_bound (room env (a_star_init start goal))
                (cells env) (cell_bound env)) as Hs.
  rewrite length_cells in Hs. unfold cell_bound in *.
  assert (forall n, room env (a_star_init start goal) n
                    <= S (Z.to_nat (columns env) * Z.to_nat (rows env)))%nat
    as Hroom.
  { intros n. unfold room, cell_bound. simpl.
    destruct (({[start := 0]} : gmap pos Z) !! n) as [gn|] eqn:E; [|lia].
    apply lookup_singleton_Some in E as [_ <-]. lia. }
  specialize (Hs Hroom). nia.
Qed.

Lemma a_star_search_post :
  exists r, a_star_search env start goal = Return r /\ a_star_post r.
Proof.
  apply a_star_loop_correct;
    auto using a_star_init_basic, a_star_init_front, a_star_init_measure.
Qed.
(** *** A score that is already optimal is never overwritten *)

Lemma a_star_state_inv st :
  a_star_state env start goal st -> basic st /\ front st None [].
Proof.
  induction 1 as [|st st' _ [B F] Hb].
  - split; [apply a_star_init_basic|apply a_star_init_front].
  - assert (open_set st <> []) as Hne.
    { intros Ho. unfold a_star_body in Hb. by rewrite Ho in Hb. }
    destruct (a_star_body_inv st B F Hne)
      as [(p & Hb' & _)|(st'' & Hb' & B' & F' & _)];
      rewrite Hb' in Hb; [done|].
    by injection Hb as <-.
Qed.

Lemma relax_keeps_optimal c st m gc n d :
  basic st -> g_score st !! c = Some gc -> nbr env c m ->
  g_score st !! n = Some d ->
  (forall k, walk env start n k -> d <= Z.of_nat k) ->
  forall st', relax goal c st m = Some st' -> g_score st' !! n = Some d.
Proof.
  intros B Hc Hcm Hn Hopt st' Hr.
  destruct (relax_cases c st m gc Hc) as [[Hr' Hm]|[Hr' Hm]];
    rewrite Hr' in Hr; injection Hr as <-; [done|].
  simpl. destruct (decide (m = n)) as [->|Hne];
    [|by rewrite lookup_insert_ne].
  rewrite Hn in Hm. destruct Hm as [?|(gm & [= <-] & Hlt)]; [done|].
  destruct (basic_walk _ _ _ _ B c gc Hc) as [Hgc Wc].
  pose proof (Hopt _ (walk_snoc _ _ _ _ _ Wc Hcm)). lia.
Qed.

Lemma relax_all_keeps_optimal c gc n d nbrs :
  (forall m, m ∈ nbrs -> nbr env c m) ->
  (forall k, walk env start n k -> d <= Z.of_nat k) ->
  forall st, basic st -> g_score st !! c = Some gc ->
    g_score st !! n = Some d ->
    forall st', relax_all goal c st nbrs = Some st' ->
    g_score st' !! n = Some d.
Proof.
  intros Hn Hopt. induction nbrs as [|m nbrs IH]; intros st B Hc Hd st'.
  - by intros [= <-].
  - simpl. assert (nbr env c m) as Hcm by (apply Hn; left).
    destruct (relax_basic c st m gc B Hc Hcm) as (st1 & Hr & B1 & Hc1).
    rewrite Hr.
    apply (IH (fun m' Hm' => Hn m' (list_elem_of_further _ _ _ Hm'))
             st1 B1 Hc1).
    exact (relax_keeps_optimal c st m gc n d B Hc Hcm Hd Hopt st1 Hr).
Qed.

Lemma a_star_turn_keeps_optimal st st' n d :
  a_star_state env start goal st ->
  a_star_body env goal (cell_bound env) st = Continue st' ->
  g_score st !! n = Some d ->
  (forall k, walk env start n k -> d <= Z.of_nat k) ->
  g_score st' !! n = Some d.
Proof.
  intros [B F]%a_star_state_inv Hb Hn Hopt. unfold a_star_body in Hb.
  destruct (heappop (open_set st)) as [[[f c] rest]|] eqn:Hpop; [|done].
  destruct (heappop_spec _ _ _ Hpop) as (Hin & _).
  destruct (decide (c = goal)) as [->|Hcg].
  { by destruct (reconstruct_path _ _ _). }
  set (st1 := {| open_set := rest; came_from := came_from st;
                 g_score := g_score st; f_score := f_score st |}) in *.
  assert (exists gc, g_score st !! c = Some gc) as (gc & Hc).
  { destruct (basic_open _ _ _ _ B f c Hin) as [->|(gn & Hn' & _)];
      [exists 0; apply B|by exists gn]. }
  assert (basic st1) as B1.
  { destruct B. split; simpl; auto.
    intros f' n' Hf'. destruct (heappop_spec _ _ _ Hpop) as (_ & _ & Hs & _).
    auto. }
  destruct (relax_all goal c st1 (get_neighbors env c.1 c.2)) as [st2|] eqn:Hr;
    [|done].
  injection Hb as <-.
  by apply (relax_all_keeps_optimal c gc n d (get_neighbors env c.1 c.2)
              (fun m Hm => Hm) Hopt st1 B1 Hc Hn).
Qed.
End AStarProofs.

(** ** IDA*: the loop over the neighbours *)

Lemma cost_le_refl c : cost_le c c.
Proof. destruct c; simpl; [lia|done]. Qed.

Lemma cost_le_trans a b c : cost_le a b -> cost_le b c -> cost_le a c.
Proof. destruct a, b, c; simpl; try done; lia. Qed.

Lemma cost_min_le a b :
  cost_le (if cost_ltb a b then a else b) a
  /\ cost_le (if cost_ltb a b then a else b) b.
Proof.
  destruct a as [x|], b as [y|]; simpl; try done.
  destruct (x <? y) eqn:E; simpl; lia.
Qed.

Section SearchEach.
Variable rec : list pos -> outcome (sresult * list pos).

(** If every recursive call returns, and hands the list back as it got it
    unless it found the goal, then so does the loop, and the cost it
    returns is the least of the costs returned to it. *)
Lemma search_each_spec nbrs (p : list pos) :
  (forall m, m ∈ nbrs -> m ∉ p ->
     exists r p', rec (p ++ [m]) = Return (r, p')
                  /\ (r = FOUND \/ p' = p ++ [m])) ->
  forall min_cost,
  exists r p', search_each rec nbrs p min_cost = Return (r, p')
    /\ ((r = FOUND
         /\ exists m, m ∈ nbrs /\ (m ∉ p)
                      /\ rec (p ++ [m]) = Return (FOUND, p'))
        \/ (exists c, r = Pruned c /\ p' = p /\ cost_le c min_cost
              /\ (forall m, m ∈ nbrs -> m ∉ p ->
                    exists cm, rec (p ++ [m]) = Return (Pruned cm, p ++ [m])
                               /\ cost_le c cm)
              /\ (c = min_cost
                  \/ exists m, m ∈ nbrs /\ (m ∉ p)
                       /\ rec (p ++ [m]) = Return (Pruned c, p ++ [m])))).
Proof.
  induction nbrs as [|n nbrs IH]; intros Hrec min_cost; simpl.
  - exists (Pruned min_cost), p. split; [done|right].
    exists min_cost. split; [done|]. split; [done|].
    split; [apply cost_le_refl|]. split; [|by left].
    intros m Hm. by apply elem_of_nil in Hm.
  - assert (forall m, m ∈ nbrs -> m ∉ p ->
              exists r p', rec (p ++ [m]) = Return (r, p')
                           /\ (r = FOUND \/ p' = p ++ [m])) as Hrec'.
    { intros m Hm. apply Hrec. by right. }
    destruct (decide (n ∈ p)) as [Hin|Hnin].
    + destruct (IH Hrec' min_cost) as (r & p' & Hs & Hcases).
      exists r, p'. split; [done|].
      destruct Hcases as [(-> & m & Hm & Hmp & Hf)|
                          (c & -> & -> & Hle & Hall & Hex)].
      * left. split; [done|]. exists m. split; [by right|done].
      * right. exists c. split; [done|]. split; [done|]. split; [done|].
        split.
        -- intros m [-> | Hm]%elem_of_cons Hmp; [done|auto].
        -- destruct Hex as [->|(m & Hm & Hmp & Hf)]; [by left|right].
           exists m. split; [by right|done].
    + destruct (Hrec n ltac:(left) Hnin) as (r0 & p0 & Hr0 & Hshape).
      rewrite Hr0. destruct r0 as [|c0].
      * exists FOUND, p0. split; [done|left]. split; [done|].
        exists n. split; [left|done].
      * destruct Hshape as [?| ->]; [done|].
        rewrite removelast_last.
        set (mc := if cost_ltb c0 min_cost then c0 else min_cost).
        destruct (cost_min_le c0 min_cost) as [Hmc0 Hmc1]. fold mc in Hmc0, Hmc1.
        destruct (IH Hrec' mc) as (r & p' & Hs & Hcases).
        exists r, p'. split; [done|].
        destruct Hcases as [(-> & m & Hm & Hmp & Hf)|
                            (c & -> & -> & Hle & Hall & Hex)].
        -- left. split; [done|]. exists m. split; [by right|done].
        -- right. exists c. split; [done|]. split; [done|].
           split; [by eapply cost_le_trans|]. split.
           ++ intros m [-> | Hm]%elem_of_cons Hmp; [|auto].
              exists c0. split; [done|by eapply cost_le_trans].
           ++ destruct Hex as [->|(m & Hm & Hmp & Hf)].
              ** unfold mc. destruct (cost_ltb c0 min_cost); [right|by left].
                 exists n. split; [left|done].
              ** right. exists m. split; [by right|done].
Qed.
End SearchEach.

(** ** IDA*: the recursive search *)

Section IDAProofs.
Variable env : Environment.
Variable start goal : pos.

Abbreviation ipath := (ida_path env start).
Abbreviation search_result := (search_result env start goal).

Lemma heuristic_nbr_back a b t :
  nbr env a b -> heuristic b t <= heuristic a t + 1.
Proof.
  intros H. apply nbr_iff in H as (Hd & _). unfold heuristic.
  destruct a as [x y], t as [u v]; simpl in *.
  destruct Hd as [-> | [-> | [-> | ->]]]; simpl; lia.
Qed.

Lemma heuristic_walk_back a b t n :
  walk env a b n -> heuristic b t <= heuristic a t + Z.of_nat n.
Proof.
  induction 1 as [a|a b c n Hab _ IH]; [lia|].
  pose proof (heuristic_nbr_back _ _ t Hab). lia.
Qed.

Lemma ida_path_length p : ipath p -> (length p <= cell_bound env)%nat.
Proof.
  intros [_ _ Hnd Hc]. rewrite <- (size_list_to_set (C := gset pos)) by done.
  apply (size_bounded env start). intros n Hn%elem_of_list_to_set. auto.
Qed.

Lemma ida_path_route p cur :
  ipath p -> last p = Some cur -> is_route env start cur p.
Proof. intros [Hh Hc _ _] Hl. by repeat split. Qed.

Lemma ida_path_snoc p cur m :
  ipath p -> last p = Some cur -> nbr env cur m -> m ∉ p ->
  ipath (p ++ [m]).
Proof.
  intros [Hh Hc Hnd Hcells] Hl Hm Hnin. split.
  - destruct p; [done|exact Hh].
  - by eapply chain_snoc.
  - apply NoDup_app. split; [done|]. split; [|apply NoDup_singleton].
    intros x Hx ->%list_elem_of_singleton. done.
  - intros n [Hn| ->%list_elem_of_singleton]%elem_of_app; [auto|].
    right. by eapply nbr_in_grid.
Qed.

Lemma moves_snoc (p : list pos) m : p <> [] -> moves (p ++ [m]) = S (moves p).
Proof.
  destruct p as [|a p]; [done|]. intros _. unfold moves. simpl.
  rewrite length_app. simpl. lia.
Qed.

Lemma ida_path_nonempty p : ipath p -> p <> [].
Proof. intros [Hh _ _ _] ->. done. Qed.

Lemma search_spec d :
  forall p g t,
    ipath p -> g = Z.of_nat (moves p) ->
    (cell_bound env < d + length p)%nat ->
    exists r p', search env goal d p g t = Return (r, p')
                 /\ search_result p t r p'.
Proof.
  induction d as [|d IH]; intros p g t Hp Hg Hd.
  { pose proof (ida_path_length p Hp). lia. }
  pose proof (ida_path_nonempty p Hp) as Hne.
  pose proof (ida_path_length p Hp) as Hlen.
  destruct (last p) as [cur|] eqn:Hl; [|by apply last_None in Hl].
  pose proof (route_walk _ _ _ _ (ida_path_route p cur Hp Hl)) as W.
  pose proof (heuristic_walk_back _ _ goal _ W) as Hh.
  pose proof (heuristic_nonneg cur goal) as Hh0.
  pose proof (moves_length p Hne) as Hml.
  simpl. rewrite Hl.
  destruct (t <? g + heuristic cur goal) eqn:Ecut.
  { exists (Pruned (Finite (g + heuristic cur goal))), p.
    split; [done|]. split; [done|]. intros f [= <-].
    unfold ida_bound. lia. }
  destruct (decide (cur = goal)) as [->|Hcg].
  { exists FOUND, p. split; [done|]. split; [by exists []; rewrite app_nil_r|].
    split; [done|]. split; [done|lia]. }
  set (rec := fun q => search env goal d q (g + 1) t).
  assert (forall m, m ∈ get_neighbors env cur.1 cur.2 -> m ∉ p ->
            exists r p', rec (p ++ [m]) = Return (r, p')
                         /\ search_result (p ++ [m]) t r p') as Hrec.
  { intros m Hm Hnin. apply IH.
    - by eapply ida_path_snoc.
    - rewrite moves_snoc by done. lia.
    - rewrite length_app. simpl. lia. }
  destruct (search_each_spec rec (get_neighbors env cur.1 cur.2) p) with
    (min_cost := Infinite) as (r & p' & Hs & Hcases).
  { intros m Hm Hnin. destruct (Hrec m Hm Hnin) as (r & p' & Hr & Hres).
    exists r, p'. split; [done|]. destruct r as [|c]; [by left|right].
    by destruct Hres. }
  exists r, p'. split; [done|].
  destruct Hcases as [(-> & m & Hm & Hnin & Hf)|
                      (c & -> & -> & _ & _ & Hex)].
  - destruct (Hrec m Hm Hnin) as (r & p0 & Hr & Hres).
    rewrite Hf in Hr. injection Hr as <- <-.
    destruct Hres as ((ext & ->) & Hres). split; [|done].
    exists ([m] ++ ext). by rewrite app_assoc.
  - split; [done|]. intros f ->.
    destruct Hex as [?|(m & Hm & Hnin & Hf)]; [done|].
    destruct (Hrec m Hm Hnin) as (r & p0 & Hr & Hres).
    rewrite Hf in Hr. injection Hr as <- <-.
    destruct Hres as [_ Hb]. by apply Hb.
Qed.
(** *** The search follows every simple route to the goal *)

Lemma chain_app_nbr (p q : list pos) cur n :
  chain env (p ++ n :: q) -> last p = Some cur -> nbr env cur n.
Proof.
  induction p as [|a p IH]; [done|]. intros Hc Hl.
  destruct p as [|b p].
  - injection Hl as ->. by destruct Hc.
  - destruct Hc as [_ Hc]. by apply IH.
Qed.

Lemma chain_app_walk (q : list pos) :
  forall p cur t, chain env (p ++ q) -> last p = Some cur ->
    last (p ++ q) = Some t -> walk env cur t (length q).
Proof.
  induction q as [|n q IH]; intros p cur t Hc Hl Ht.
  - rewrite app_nil_r in Ht. rewrite Hl in Ht. injection Ht as ->.
    constructor.
  - simpl. eapply walk_move; [by eapply chain_app_nbr|].
    apply (IH (p ++ [n])); rewrite <- ?app_assoc; try done.
    by rewrite last_snoc.
Qed.

Lemma search_follow (q : list pos) :
  forall p g t d,
    ipath p -> g = Z.of_nat (moves p) ->
    (cell_bound env < d + length p)%nat ->
    chain env (p ++ q) -> NoDup (p ++ q) -> last (p ++ q) = Some goal ->
    forall r p', search env goal d p g t = Return (r, p') ->
    r = FOUND
    \/ exists f, r = Pruned (Finite f) /\ f <= g + Z.of_nat (length q).
Proof.
  induction q as [|n q IH]; intros p g t d Hp Hg Hd Hc Hnd Hlast r p' Hs.
  - destruct d as [|d]; [done|]. simpl in Hs.
    rewrite app_nil_r in Hlast. rewrite Hlast in Hs.
    rewrite heuristic_self in Hs.
    destruct (t <? g + 0) eqn:E.
    + injection Hs as <- <-. right. eexists. split; [done|simpl; lia].
    + destruct (decide (goal = goal)); [|done].
      injection Hs as <- <-. by left.
  - destruct d as [|d]; [done|].
    pose proof (ida_path_nonempty p Hp) as Hne.
    destruct (last p) as [cur|] eqn:Hl; [|by apply last_None in Hl].
    pose proof (chain_app_walk (n :: q) p cur goal Hc Hl Hlast) as W.
    pose proof (heuristic_admissible _ _ _ _ W) as Hadm.
    simpl in Hs. rewrite Hl in Hs.
    destruct (t <? g + heuristic cur goal) eqn:Ecut.
    { injection Hs as <- <-. right. eexists. split; [done|lia]. }
    destruct (decide (cur = goal)) as [->|Hcg].
    { injection Hs as <- <-. by left. }
    set (rec := fun q => search env goal d q (g + 1) t) in *.
    assert (forall m, m ∈ get_neighbors env cur.1 cur.2 -> m ∉ p ->
              exists r p', rec (p ++ [m]) = Return (r, p')
                           /\ search_result (p ++ [m]) t r p') as Hrec.
    { intros m Hm Hnin. apply search_spec.
      - by eapply ida_path_snoc.
      - rewrite moves_snoc by done. lia.
      - rewrite length_app. simpl. lia. }
    assert (nbr env cur n) as Hcn by (by eapply chain_app_nbr).
    assert (n ∉ p) as Hnp.
    { apply NoDup_app in Hnd as (_ & Hdis & _). intros Hin.
      apply (Hdis n Hin). left. }
    destruct (search_each_spec rec (get_neighbors env cur.1 cur.2) p) with
      (min_cost := Infinite) as (r1 & p1 & Hs1 & Hcases).
    { intros m Hm Hnin. destruct (Hrec m Hm Hnin) as (r1 & p1 & Hr & Hres).
      exists r1, p1. split; [done|]. destruct r1 as [|c]; [by left|right].
      by destruct Hres. }
    rewrite Hs1 in Hs. injection Hs as <- <-.
    destruct Hcases as [(-> & _)|(c & -> & -> & _ & Hall & _)]; [by left|].
    right. destruct (Hall n Hcn Hnp) as (cn & Hrn & Hle).
    destruct (IH (p ++ [n]) (g + 1) t d) with (r := Pruned cn)
      (p' := p ++ [n]) as [?|(f & [= ->] & Hf)]; try done.
    + by eapply ida_path_snoc.
    + rewrite moves_snoc by done. lia.
    + rewrite length_app. simpl. lia.
    + by rewrite <- app_assoc.
    + by rewrite <- app_assoc.
    + by rewrite <- app_assoc.
    + destruct c as [f'|]; [|done]. exists f'. split; [done|].
      simpl in Hle |- *. lia.
Qed.

(** *** Every route contains a route without repeated cells *)

Lemma chain_app_r (l1 l2 : list pos) : chain env (l1 ++ l2) -> chain env l2.
Proof.
  induction l1 as [|a l1 IH]; [done|]. intros Hc. apply IH.
  simpl in Hc. destruct (l1 ++ l2); [done|]. by destruct Hc.
Qed.

Lemma route_simple (p : list pos) :
  forall s t, is_route env s t p ->
    exists p', is_route env s t p' /\ NoDup p'
               /\ (length p' <= length p)%nat.
Proof.
  induction p as [|a p IH]; intros s t (Hh & Hl & Hc); [done|].
  injection Hh as ->. destruct p as [|b p].
  - exists [s]. split; [by repeat split|].
    split; [apply NoDup_singleton|done].
  - destruct Hc as [Hab Hc].
    destruct (IH b t) as (p' & (Hh' & Hl' & Hc') & Hnd & Hlen);
      [by repeat split|].
    destruct (decide (s ∈ p')) as [Hin|Hnin].
    + apply list_elem_of_split in Hin as (l1 & l2 & ->).
      exists (s :: l2). split; [|split].
      * split; [done|]. split; [|by eapply chain_app_r].
        by rewrite last_app_cons in Hl'.
      * by apply NoDup_app in Hnd as (_ & _ & ?).
      * rewrite length_app in Hlen. simpl in *. lia.
    + exists (s :: p'). split; [|split].
      * split; [done|]. split.
        -- destruct p'; [done|]. exact Hl'.
        -- destruct p' as [|b' p']; [done|]. injection Hh' as ->.
           by split.
      * by apply NoDup_cons.
      * simpl in *. lia.
Qed.

(** *** The loop over the thresholds *)

Lemma ida_path_start : ipath [start].
Proof.
  split; [done|done|apply NoDup_singleton|].
  intros n ->%list_elem_of_singleton. by left.
Qed.

Lemma ida_loop_S depth fuel (p : list pos) t :
  ida_loop env goal depth (S fuel) p t
  = match search env goal depth p 0 t with
    | Return (FOUND, p') => Return (Some p')
    | Return (Pruned Infinite, _) => Return None
    | Return (Pruned (Finite result), p') =>
        ida_loop env goal depth fuel p' result
    | OutOfFuel => OutOfFuel
    | Raised => Raised
    end.
Proof. reflexivity. Qed.

Lemma ida_loop_correct fuel :
  forall t,
    t <= ida_bound env start goal ->
    (forall q, is_route env start goal q -> NoDup q ->
               t <= Z.of_nat (moves q)) ->
    ida_bound env start goal - t + 1 <= Z.of_nat fuel ->
    exists r, ida_loop env goal (cell_bound env) fuel [start] t = Return r
              /\ search_post env start goal r.
Proof.
  induction fuel as [|fuel IH]; intros t Ht Hlow Hfuel; [lia|].
  assert (forall q, is_route env start goal q -> NoDup q ->
            forall r p', search env goal (cell_bound env) [start] 0 t
                         = Return (r, p') ->
            r = FOUND \/ exists f, r = Pruned (Finite f)
                                   /\ f <= Z.of_nat (moves q)) as Hfollow.
  { intros q (Hh & Hl & Hc) Hnd r p' Hs.
    destruct q as [|s q]; [done|]. injection Hh as ->.
    destruct (search_follow q [start] 0 t (cell_bound env)) with
      (r := r) (p' := p') as [?|(f & -> & Hf)]; try done.
    - apply ida_path_start.
    - cbn [length]. lia.
    - by left.
    - right. exists f. split; [done|]. unfold moves. simpl. lia. }
  destruct (search_spec (cell_bound env) [start] 0 t)
    as (r & p' & Hs & Hres); [apply ida_path_start|done|cbn [length]; lia|].
  rewrite ida_loop_S, Hs. destruct r as [|[f|]].
  - exists (Some p'). split; [done|].
    destruct Hres as (_ & [Hh Hc Hnd _] & Hl & Hm).
    split; [by repeat split|].
    intros q Hq. destruct (route_simple q _ _ Hq) as (q' & Hq' & Hnd' & Hlen).
    specialize (Hlow q' Hq' Hnd').
    assert (p' <> []) by (by intros ->).
    assert (q' <> []) by (destruct Hq' as (? & _); by intros ->).
    rewrite (moves_length p'), (moves_length q') in * by done. lia.
  - destruct Hres as [-> Hb]. destruct (Hb f eq_refl) as [Hlt Hle].
    apply IH; [done| |lia].
    intros q Hq Hnd.
    destruct (Hfollow q Hq Hnd _ _ Hs) as [?|(f' & [= <-] & Hf)]; done.
  - exists None. split; [done|].
    intros (q & Hq).
    destruct (route_simple q _ _ Hq) as (q' & Hq' & Hnd' & _).
    destruct (Hfollow q' Hq' Hnd' _ _ Hs) as [?|(f' & ? & _)]; done.
Qed.

Lemma ida_star_search_post :
  exists r, ida_star_search env start goal = Return r
            /\ search_post env start goal r.
Proof.
  apply ida_loop_correct.
  - unfold ida_bound, cell_bound. lia.
  - intros q Hq _. apply (heuristic_admissible env). by apply route_walk.
  - unfold ida_bound, ida_fuel. lia.
Qed.
End IDAProofs.

(** ** Barrier-free grids: the Manhattan distance is attained *)

Section BarrierFree.
Variable env : Environment.
Hypothesis no_barrier : barrier_locations env = ∅.

Lemma free_nbr a b :
  in_grid env b ->
  (b = (a.1, a.2 - 1) \/ b = (a.1, a.2 + 1)
   \/ b = (a.1 - 1, a.2) \/ b = (a.1 + 1, a.2)) ->
  nbr env a b.
Proof.
  intros Hb Hd. apply nbr_iff. split; [done|]. split; [done|].
  rewrite no_barrier. apply not_elem_of_empty.
Qed.

(** From a cell of the grid, a cell of the grid is as many moves away as
    the heuristic says. *)
Lemma manhattan_walk n :
  forall s t, in_grid env s -> in_grid env t ->
    heuristic s t = Z.of_nat n -> walk env s t n.
Proof.
  induction n as [|n IH]; intros [x y] [u v] Hs Ht Hh;
    unfold heuristic, in_grid, is_within_bounds in *; simpl in *.
  - assert (x = u) as -> by lia. assert (y = v) as -> by lia. constructor.
  - destruct (decide (x < u)).
    { apply (walk_move _ _ (x + 1, y)).
      - apply free_nbr; [|simpl; auto].
        unfold in_grid, is_within_bounds; simpl. lia.
      - apply IH; unfold heuristic, in_grid, is_within_bounds; simpl; lia. }
    destruct (decide (u < x)).
    { apply (walk_move _ _ (x - 1, y)).
      - apply free_nbr; [|simpl; auto].
        unfold in_grid, is_within_bounds; simpl. lia.
      - apply IH; unfold heuristic, in_grid, is_within_bounds; simpl; lia. }
    destruct (decide (y < v)).
    { apply (walk_move _ _ (x, y + 1)).
      - apply free_nbr; [|simpl; auto].
        unfold in_grid, is_within_bounds; simpl. lia.
      - apply IH; unfold heuristic, in_grid, is_within_bounds; simpl; lia. }
    apply (walk_move _ _ (x, y - 1)).
    + apply free_nbr; [|simpl; auto].
      unfold in_grid, is_within_bounds; simpl. lia.
    + apply IH; unfold heuristic, in_grid, is_within_bounds; simpl; lia.
Qed.

Lemma walk_in_grid a b n : walk env a b (S n) -> in_grid env b.
Proof.
  revert a. induction n as [|n IH]; intros a W.
  - inversion W as [|? m ? ? Hm W']; subst. inversion W'; subst.
    by eapply nbr_in_grid.
  - inversion W as [|? m ? ? Hm W']; subst. by eapply IH.
Qed.

(** The same from a start that may lie outside of the grid. *)
Lemma free_walk s t :
  reachable env s t -> walk env s t (Z.to_nat (heuristic s t)).
Proof.
  intros (n & W)%reachable_walk.
  pose proof (heuristic_nonneg s t) as H0.
  destruct n as [|n].
  { inversion W; subst. rewrite heuristic_self. constructor. }
  pose proof (walk_in_grid _ _ _ W) as Ht.
  inversion W as [|? s1 ? ? Hs1 W1]; subst.
  destruct (is_within_bounds env s.1 s.2) eqn:Hs.
  { apply manhattan_walk; [done|done|lia]. }
  pose proof (nbr_in_grid _ _ _ Hs1) as Hg1.
  apply nbr_iff in Hs1 as (Hd & _).
  assert (heuristic s t = heuristic s1 t + 1) as Hh.
  { destruct s as [x y], t as [u v].
    unfold heuristic, in_grid, is_within_bounds in *; simpl in *.
    destruct Hd as [-> | [-> | [-> | ->]]]; simpl in *; lia. }
  pose proof (heuristic_nonneg s1 t) as H1.
  replace (Z.to_nat (heuristic s t))
    with (S (Z.to_nat (heuristic s1 t))) by lia.
  apply (walk_move _ _ s1).
  - apply free_nbr; done.
  - apply manhattan_walk; [done|done|lia].
Qed.

Lemma free_shortest s t p :
  shortest_route env s t p -> Z.of_nat (moves p) = heuristic s t.
Proof.
  intros [Hp Hmin].
  pose proof (heuristic_admissible _ _ _ _ (route_walk _ _ _ _ Hp)) as Hlow.
  assert (reachable env s t) as Hr by (by exists p).
  destruct (walk_route _ _ _ _ (free_walk s t Hr)) as (q & Hq & Hlen).
  specialize (Hmin q Hq).
  assert (p <> []) as Hne by (destruct Hp as (? & _); by intros ->).
  rewrite (moves_length p Hne) in Hmin.
  pose proof (heuristic_nonneg s t). lia.
Qed.
End BarrierFree.

(** * The searches *)

Lemma route_nonempty env s t (p : list pos) : is_route env s t p -> p <> [].
Proof. intros (Hh & _) ->. done. Qed.

(** Settles a closed statement about a sample scenario by evaluation. *)
Ltac by_evaluation :=
  first [ exact I
        | reflexivity
        | unfold nbr; apply (bool_decide_unpack _); vm_compute; exact I ].

(** C1: for every grid environment and every goal reachable from the agent's
    position by moves to neighbouring cells that avoid barriers,
    [a_star_search] returns a route from start to goal with the least number
    of moves; for every unreachable goal it returns [None].  A turn of the
    loop never changes a recorded score that is already the least number of
    moves to its node, whatever entry was popped. *)
Theorem a_star_search_shortest (env : Environment) (start goal : pos) :
  (reachable env start goal ->
     exists p, a_star_search env start goal = Return (Some p)
               /\ is_route env start goal p
               /\ forall q, is_route env start goal q ->
                    (moves p <= moves q)%nat)
  /\ (~ reachable env start goal ->
        a_star_search env start goal = Return None)
  /\ (forall st st' n d,
        a_star_state env start goal st ->
        a_star_body env goal (cell_bound env) st = Continue st' ->
        g_score st !! n = Some d ->
        (forall k, walk env start n k -> d <= Z.of_nat k) ->
        g_score st' !! n = Some d).
Proof.
  destruct (a_star_search_post env start goal) as (r & Hr & Hpost).
  split; [|split].
  - intros Hreach. destruct r as [p|]; [|by destruct Hpost].
    exists p. split; [done|]. destruct Hpost as [Hp Hmin]. split; [done|].
    intros q Hq. specialize (Hmin q Hq).
    rewrite (moves_length p), (moves_length q) in Hmin
      by eauto using route_nonempty.
    lia.
  - intros Hun. destruct r as [p|]; [|done].
    destruct Hpost as [Hp _]. destruct Hun. by exists p.
  - apply a_star_turn_keeps_optimal.
Qed.

Lemma a_star_search_shortest_witness :
  exists p, a_star_search env33 (0, 0) (2, 2) = Return (Some p)
            /\ is_route env33 (0, 0) (2, 2) p
            /\ forall q, is_route env33 (0, 0) (2, 2) q ->
                 (moves p <= moves q)%nat.
Proof.
  apply (proj1 (a_star_search_shortest env33 (0, 0) (2, 2))).
  exists [(0, 0); (0, 1); (0, 2); (1, 2); (2, 2)].
  repeat split; by_evaluation.
Defined.




(** With start and goal on the same cell the open set holds the one entry
    of the start, which is popped and recognised as the goal. *)
Lemma a_star_same_cell_turn env p pf :
  a_star_body env p pf (a_star_init p p) = Stop (Return (Some [p])).
Proof.
  unfold a_star_body, a_star_init, heappush, heappop. simpl.
  rewrite decide_True by done. simpl.
  unfold reconstruct_path. destruct pf; simpl; by rewrite lookup_empty.
Qed.

Lemma ida_same_cell_call env p d :
  search env p (S d) [p] 0 (heuristic p p) = Return (FOUND, [p]).
Proof.
  simpl. rewrite heuristic_self. simpl. by rewrite decide_True.
Qed.

(** C5, as the code has it: for every grid environment and every position
    [p], both searches called with start and goal on [p] succeed with the
    one-cell route [[p]], a route of no move.  [a_star_search] needs one pop
    of the open set for it and no more (a budget of no pop is not enough,
    a budget of one is); [ida_star_search] needs one call of [search] from
    its loop, and that call makes no recursive call (a recursion depth of
    one is enough). *)
Theorem search_same_cell (env : Environment) (p : pos) :
  a_star_search env p p = Return (Some [p])
  /\ ida_star_search env p p = Return (Some [p])
  /\ moves [p] = 0%nat
  /\ (forall pf, a_star_loop env p pf 0 (a_star_init p p) = OutOfFuel)
  /\ (forall pf, a_star_loop env p pf 1 (a_star_init p p)
                 = Return (Some [p]))
  /\ ida_loop env p 1 1 [p] (heuristic p p) = Return (Some [p]).
Proof.
  split; [|split; [|split; [|split; [|split]]]].
  - unfold a_star_search, a_star_fuel.
    change (a_star_loop env p (cell_bound env)
              (S (cell_bound env * cell_bound env)) (a_star_init p p))
      with (match a_star_body env p (cell_bound env) (a_star_init p p) with
            | Stop r => r
            | Continue st' =>
                a_star_loop env p (cell_bound env)
                  (cell_bound env * cell_bound env) st'
            end).
    by rewrite a_star_same_cell_turn.
  - unfold ida_star_search, ida_fuel, cell_bound.
    replace (2 * S (Z.to_nat (columns env) * Z.to_nat (rows env)))%nat
      with (S (S (2 * (Z.to_nat (columns env) * Z.to_nat (rows env)))))
      by lia.
    by rewrite ida_loop_S, ida_same_cell_call.
  - reflexivity.
  - reflexivity.
  - intros pf.
    change (a_star_loop env p pf 1 (a_star_init p p))
      with (match a_star_body env p pf (a_star_init p p) with
            | Stop r => r
            | Continue st' => a_star_loop env p pf 0 st'
            end).
    by rewrite a_star_same_cell_turn.
  - by rewrite ida_loop_S, ida_same_cell_call.
Qed.

(** C5 as first stated fails: [a_star_search] does not return without a
    pop of its open set, and neither search returns the empty list. *)
Lemma search_same_cell_counterexample :
  ~ (exists pf r, a_star_loop env33 (0, 0) pf 0 (a_star_init (0, 0) (0, 0))
                  = Return r)
  /\ a_star_search env33 (0, 0) (0, 0) <> Return (Some [])
  /\ ida_star_search env33 (0, 0) (0, 0) <> Return (Some []).
Proof.
  split; [|split].
  - intros (pf & r & H). discriminate H.
  - vm_compute. discriminate.
  - vm_compute. discriminate.
Qed.

(** * Task selection *)

Lemma run_search_post algorithm env s t :
  known_algorithm algorithm ->
  exists r, run_search algorithm env s t = Return r /\ search_post env s t r.
Proof.
  intros [-> | ->]; unfold run_search; simpl.
  - apply a_star_search_post.
  - apply ida_star_search_post.
Qed.

Lemma run_search_Some algorithm env s t p :
  known_algorithm algorithm ->
  run_search algorithm env s t = Return (Some p) ->
  shortest_route env s t p /\ truthy (Some p) = true.
Proof.
  intros Ha Hr. destruct (run_search_post algorithm env s t Ha) as (r & Hr' & Hp).
  rewrite Hr in Hr'. injection Hr' as <-. split; [done|].
  destruct Hp as [Hp _]. apply route_nonempty in Hp. by destruct p.
Qed.

Lemma run_search_None algorithm env s t :
  known_algorithm algorithm ->
  run_search algorithm env s t = Return None -> ~ reachable env s t.
Proof.
  intros Ha Hr. destruct (run_search_post algorithm env s t Ha) as (r & Hr' & Hp).
  rewrite Hr in Hr'. by injection Hr' as <-.
Qed.

Section NearestLoop.
Variable algorithm : string.
Variable env : Environment.
Variable start : pos.
Hypothesis known : known_algorithm algorithm.

Abbreviation run := (run_search algorithm env start).
Abbreviation first_shortest := (first_shortest algorithm env start).

Lemma first_shortest_here tasks k v p :
  run k = Return (Some p) ->
  (forall j k' v' p', tasks !! j = Some (k', v') ->
     run k' = Return (Some p') -> (length p <= length p')%nat) ->
  first_shortest ((k, v) :: tasks) 0 p.
Proof.
  intros Hr Hall [|j] k' v' p' Hj Hrj; simpl in Hj.
  - injection Hj as <- <-. rewrite Hr in Hrj. injection Hrj as <-.
    split; lia.
  - split; [by eapply Hall|lia].
Qed.

Lemma first_shortest_later tasks k v i p :
  (forall p0, run k = Return (Some p0) -> (length p < length p0)%nat) ->
  first_shortest tasks i p ->
  first_shortest ((k, v) :: tasks) (S i) p.
Proof.
  intros Hk Hfs [|j] k' v' p' Hj Hrj; simpl in Hj.
  - injection Hj as <- <-. specialize (Hk p' Hrj). split; [lia|done].
  - destruct (Hfs j k' v' p' Hj Hrj) as [Hle Hlt]. split; [done|].
    intros Hji. apply Hlt. lia.
Qed.

Lemma nearest_loop_spec tasks :
  forall nt sp,
  exists nt' sp',
    nearest_loop algorithm env start tasks nt sp = Return (nt', sp')
    /\ ((nt' = nt /\ sp' = sp
         /\ forall j k v p, tasks !! j = Some (k, v) ->
              run k = Return (Some p) ->
              truthy sp = true /\ (len sp <= length p)%nat)
        \/ exists i k v p,
             tasks !! i = Some (k, v) /\ run k = Return (Some p)
             /\ nt' = Some k /\ sp' = Some p
             /\ (truthy sp = true -> (length p < len sp)%nat)
             /\ first_shortest tasks i p).
Proof.
  induction tasks as [|[k v] tasks IH]; intros nt sp.
  - exists nt, sp. split; [done|left]. split; [done|]. split; [done|].
    intros j k v p Hj. done.
  - simpl. destruct (run_search_post algorithm env start k known)
      as (r & Hr & Hpost).
    rewrite Hr.
    destruct (truthy r && (negb (truthy sp) || (len r <? len sp)%nat))
      eqn:Etake.
    + apply andb_true_iff in Etake as [Htr Hbetter].
      destruct r as [p|]; [|done].
      assert (truthy sp = true -> (length p < len sp)%nat) as Hlt.
      { intros Hsp. rewrite Hsp in Hbetter. simpl in Hbetter.
        by apply Nat.ltb_lt in Hbetter. }
      destruct (IH (Some k) (Some p)) as (nt' & sp' & Hloop & Hcases).
      exists nt', sp'. split; [done|right].
      destruct Hcases as [(-> & -> & Hall)|
                          (i & k' & v' & p' & Hi & Hri & -> & -> & Hlt' & Hfs)].
      * exists 0%nat, k, v, p.
        split; [done|]. split; [done|]. split; [done|]. split; [done|].
        split; [done|]. apply first_shortest_here; [done|].
        intros j k0 v0 p0 Hj Hrj. by destruct (Hall j k0 v0 p0 Hj Hrj).
      * specialize (Hlt' Htr). simpl in Hlt'.
        exists (S i), k', v', p'.
        split; [done|]. split; [done|]. split; [done|]. split; [done|].
        split.
        -- intros Hsp. specialize (Hlt Hsp). lia.
        -- apply first_shortest_later; [|done].
           intros p0 Hr0. rewrite Hr in Hr0. by injection Hr0 as <-.
    + assert (forall p0, r = Some p0 ->
                truthy sp = true /\ (len sp <= length p0)%nat) as Hkeep.
      { intros p0 ->. destruct (run_search_Some _ _ _ _ _ known Hr) as [_ Ht].
        rewrite Ht in Etake. simpl in Etake.
        destruct (truthy sp); simpl in Etake; [|done]. split; [done|].
        by apply Nat.ltb_ge in Etake. }
      destruct (IH nt sp) as (nt' & sp' & Hloop & Hcases).
      exists nt', sp'. split; [done|].
      destruct Hcases as [(-> & -> & Hall)|
                          (i & k' & v' & p' & Hi & Hri & -> & -> & Hlt' & Hfs)].
      * left. split; [done|]. split; [done|].
        intros j k0 v0 p0 Hj Hrj. destruct j as [|j]; simpl in *.
        -- injection Hj as <- <-. rewrite Hr in Hrj. injection Hrj as ->.
           by apply Hkeep.
        -- by eapply Hall.
      * right. exists (S i), k', v', p'.
        split; [done|]. split; [done|]. split; [done|]. split; [done|].
        split; [done|]. apply first_shortest_later; [|done].
        intros p0 Hr0. rewrite Hr in Hr0. injection Hr0 as ->.
        destruct (Hkeep p0 eq_refl) as [Hsp Hle].
        specialize (Hlt' Hsp). lia.
Qed.
End NearestLoop.

Lemma find_nearest_task_cases algorithm w :
  known_algorithm algorithm ->
  let env := environment w in
  let a := agent w in
  (find_nearest_task algorithm w = Return w
   /\ nearest_loop algorithm env (position a) (task_locations env) None None
      = Return (None, None)
   /\ forall j k v, task_locations env !! j = Some (k, v) ->
        run_search algorithm env (position a) k = Return None)
  \/ exists i k v p,
       task_locations env !! i = Some (k, v)
       /\ run_search algorithm env (position a) k = Return (Some p)
       /\ nearest_loop algorithm env (position a) (task_locations env)
            None None = Return (Some k, Some p)
       /\ find_nearest_task algorithm w
          = Return {| agent := follow a (tail p); environment := env |}
       /\ first_shortest algorithm env (position a) (task_locations env) i p.
Proof.
  intros known env a.
  destruct (nearest_loop_spec algorithm env (position a) known
              (task_locations env) None None)
    as (nt' & sp' & Hloop & [(-> & -> & Hall)|
                             (i & k & v & p & Hi & Hr & -> & -> & _ & Hfs)]).
  - left. unfold find_nearest_task. fold env a. rewrite Hloop. simpl.
    split; [done|]. split; [done|].
    intros j k v Hj.
    destruct (run_search_post algorithm env (position a) k known)
      as ([p|] & Hr & _); [|done].
    by destruct (Hall j k v p Hj Hr).
  - right. exists i, k, v, p. split; [done|]. split; [done|]. split; [done|].
    split; [|done]. unfold find_nearest_task. fold env a. rewrite Hloop.
    destruct (run_search_Some _ _ _ _ _ known Hr) as [_ Ht]. by rewrite Ht.
Qed.





(** * The simulation when no task can be reached *)

Lemma stalled_tick algorithm w :
  known_algorithm algorithm ->
  moving (agent w) = false ->
  task_locations (environment w) <> [] ->
  (forall k v, (k, v) ∈ task_locations (environment w) ->
     ~ reachable (environment w) (position (agent w)) k) ->
  find_nearest_task algorithm w = Return w
  /\ tick_action w = Searching
  /\ tick algorithm w = Return w.
Proof.
  intros known Hm Ht Hun.
  assert (tick_action w = Searching) as Ha.
  { unfold tick_action. rewrite Hm. simpl. by rewrite bool_decide_eq_true_2. }
  assert (find_nearest_task algorithm w = Return w) as Hf.
  { destruct (find_nearest_task_cases algorithm w known)
      as [(Hf & _)|(i & k & v & p & Hi & Hr & _)]; [done|].
    destruct (run_search_Some _ _ _ _ _ known Hr) as [[Hp _] _].
    destruct (Hun k v); [by eapply list_elem_of_lookup_2|by exists p]. }
  split; [done|]. split; [done|]. unfold tick. by rewrite Ha.
Qed.

Lemma stalled_ticks algorithm w n :
  known_algorithm algorithm ->
  moving (agent w) = false ->
  task_locations (environment w) <> [] ->
  (forall k v, (k, v) ∈ task_locations (environment w) ->
     ~ reachable (environment w) (position (agent w)) k) ->
  ticks algorithm n w = Return w.
Proof.
  intros known Hm Ht Hun. induction n as [|n IH]; [done|]. simpl.
  destruct (stalled_tick algorithm w known Hm Ht Hun) as (_ & _ & ->).
  exact IH.
Qed.


Lemma walled_world_unreachable k v :
  (k, v) ∈ task_locations (environment walled_world) ->
  ~ reachable (environment walled_world) (position (agent walled_world)) k.
Proof.
  intros [= -> ->]%list_elem_of_singleton.
  apply (run_search_None "A*"); [by left|]. vm_compute. reflexivity.
Qed.



(** * Completing a task *)

Lemma dict_get_None k (d : list (pos * Z)) : dict_get k d = None <-> k ∉ d.*1.
Proof.
  induction d as [|[k' v] d IH]; simpl.
  - split; [intros _; apply not_elem_of_nil|done].
  - rewrite not_elem_of_cons. destruct (decide (k' = k)) as [->|Hne].
    + split; [done|]. by intros [? _].
    + rewrite IH. split; [by split|by intros [_ ?]].
Qed.

Lemma dict_pop_length k (d : list (pos * Z)) v :
  dict_get k d = Some v -> S (length (dict_pop k d)) = length d.
Proof.
  induction d as [|[k' v'] d IH]; simpl; [done|].
  destruct (decide (k' = k)); [done|]. intros H. simpl. by rewrite IH.
Qed.

Lemma dict_pop_other k k0 (d : list (pos * Z)) :
  k0 <> k -> dict_get k0 (dict_pop k d) = dict_get k0 d.
Proof.
  intros Hne. induction d as [|[k' v'] d IH]; simpl; [done|].
  destruct (decide (k' = k)) as [->|Hk]; simpl.
  - by rewrite decide_False.
  - destruct (decide (k' = k0)); [done|exact IH].
Qed.

Lemma dict_pop_gone k (d : list (pos * Z)) :
  dict_wf d -> dict_get k (dict_pop k d) = None.
Proof.
  unfold dict_wf. induction d as [|[k' v'] d IH]; simpl; [done|].
  intros [Hnin Hnd]%NoDup_cons. destruct (decide (k' = k)) as [->|Hk]; simpl.
  - by apply dict_get_None.
  - rewrite decide_False by done. by apply IH.
Qed.

Lemma dict_pop_keys k (d : list (pos * Z)) x :
  x ∈ (dict_pop k d).*1 -> x ∈ d.*1.
Proof.
  induction d as [|[k' v'] d IH]; simpl; [done|].
  destruct (decide (k' = k)); simpl; [by right|].
  intros [-> | Hx]%elem_of_cons; [left|right; auto].
Qed.

Lemma dict_pop_wf k (d : list (pos * Z)) : dict_wf d -> dict_wf (dict_pop k d).
Proof.
  unfold dict_wf. induction d as [|[k' v'] d IH]; simpl; [done|].
  intros [Hnin Hnd]%NoDup_cons. destruct (decide (k' = k)); simpl; [done|].
  apply NoDup_cons. split; [|auto]. intros Hin. by apply dict_pop_keys in Hin.
Qed.

(** C7: if the agent's cell holds a task, [check_task_completion] takes
    that one entry out of the open task mapping (one entry fewer, the cell
    no longer a key, every other key with its task) and appends that
    task's number, and nothing else, to the list of completed tasks; if the
    cell holds no task it changes nothing. *)
Theorem check_task_completion_effect (w : World) :
  dict_wf (task_locations (environment w)) ->
  let here := position (agent w) in
  let tasks := task_locations (environment w) in
  let w' := check_task_completion w in
  match dict_get here tasks with
  | Some task_number =>
      S (length (task_locations (environment w'))) = length tasks
      /\ dict_get here (task_locations (environment w')) = None
      /\ (forall k, k <> here ->
            dict_get k (task_locations (environment w')) = dict_get k tasks)
      /\ dict_wf (task_locations (environment w'))
      /\ completed_tasks (agent w') = completed_tasks (agent w) ++ [task_number]
      /\ task_completed (agent w') = task_completed (agent w) + 1
  | None => w' = w
  end.
Proof.
  intros Hwf here tasks w'. unfold w', check_task_completion.
  fold here tasks. destruct (dict_get here tasks) as [task_number|] eqn:Hget;
    [|done].
  simpl. split; [by eapply dict_pop_length|].
  split; [by apply dict_pop_gone|].
  split; [intros k Hk; by apply dict_pop_other|].
  split; [by apply dict_pop_wf|done].
Qed.

Lemma check_task_completion_effect_witness :
  let w := {| agent := {| position := (2, 2); task_completed := 0;
                          completed_tasks := []; path := []; moving := true;
                          cumulative_cost := 4 |};
              environment := env33 |} in
  S (length (task_locations (environment (check_task_completion w)))) = 1%nat
  /\ completed_tasks (agent (check_task_completion w)) = [1].
Proof.
  intros w.
  pose proof (check_task_completion_effect w) as H.
  assert (dict_wf (task_locations (environment w))) as Hwf.
  { apply NoDup_singleton. }
  specialize (H Hwf). simpl in H.
  destruct H as (H1 & _ & _ & _ & H2 & _). split; [exact H1|exact H2].
Defined.

(** * A task on the agent's own cell *)

Lemma start_task_cycle w :
  w = start_task_world \/ w = start_task_world_moving ->
  exists w', tick "A*" w = Return w'
             /\ (w' = start_task_world \/ w' = start_task_world_moving).
Proof.
  intros [-> | ->].
  - exists start_task_world_moving. split; [vm_compute; reflexivity|by right].
  - exists start_task_world. split; [vm_compute; reflexivity|by left].
Qed.

(** C8 at a task that lies on the agent's starting cell: the selection
    takes the one-cell route to it, the stored path is empty, the next tick
    only clears the moving flag, and the cycle starts again.  Whatever the
    number of ticks, the task is still open, no task is completed and the
    cumulative cost is zero. *)
Theorem start_task_never_completed (n : nat) :
  exists w, ticks "A*" n start_task_world = Return w
            /\ task_locations (environment w) = [((0, 0), 1)]
            /\ completed_tasks (agent w) = []
            /\ cumulative_cost (agent w) = 0
            /\ tick_action w <> Resting.
Proof.
  assert (forall w, w = start_task_world \/ w = start_task_world_moving ->
            exists w', ticks "A*" n w = Return w'
                       /\ (w' = start_task_world
                           \/ w' = start_task_world_moving))
    as Hcycle.
  { induction n as [|n IH]; intros w Hw.
    - by exists w.
    - destruct (start_task_cycle w Hw) as (w1 & Ht & Hw1).
      simpl. rewrite Ht. by apply IH. }
  destruct (Hcycle start_task_world (or_introl eq_refl)) as (w & Hn & Hw).
  exists w. split; [done|]. by destruct Hw as [-> | ->].
Qed.

(** * Drawing random locations *)

Section RandomLocations.
Variable env : Environment.
Variable count : Z.
Variable exclude : gset pos.

Abbreviation good_location := (good_location env exclude).

Lemma random_loop_step (location : pos) (draws : list pos)
    (locations : gset pos) :
  Z.of_nat (size locations) < count ->
  random_locations_loop (location :: draws) count exclude locations
  = random_locations_loop draws count exclude
      (if decide (location ∈ exclude) then locations
       else {[ location ]} ∪ locations).
Proof.
  intros H. simpl. by rewrite (proj2 (Z.ltb_lt _ _) H).
Qed.

Lemma random_loop_done (draws : list pos) (locations : gset pos) :
  count <= Z.of_nat (size locations) ->
  random_locations_loop draws count exclude locations = Return locations.
Proof.
  intros H. destruct draws; simpl; by rewrite (proj2 (Z.ltb_ge _ _) H).
Qed.

Lemma size_add_le (x : pos) (X : gset pos) :
  (size ({[ x ]} ∪ X) <= S (size X))%nat.
Proof.
  rewrite size_union_alt, size_singleton.
  assert (size (X ∖ {[x]}) <= size X)%nat as Hd
    by (apply subseteq_size; set_solver).
  lia.
Qed.

(** What the loop returns, when it returns. *)
Lemma random_loop_sound (draws : list pos) :
  forall locations result,
    (forall d, d ∈ draws -> in_grid env d) ->
    (forall x, x ∈ locations -> good_location x) ->
    Z.of_nat (size locations) <= Z.max 0 count ->
    random_locations_loop draws count exclude locations = Return result ->
    Z.of_nat (size result) = Z.max 0 count
    /\ forall x, x ∈ result -> good_location x.
Proof.
  induction draws as [|d draws IH]; intros locations result Hd Hgood Hsz Hr.
  - simpl in Hr. destruct (Z.of_nat (size locations) <? count) eqn:E;
      [done|]. injection Hr as <-. split; [lia|done].
  - destruct (decide (Z.of_nat (size locations) < count)) as [Hlt|Hge].
    + rewrite random_loop_step in Hr by done.
      apply IH in Hr; [done| | |].
      * intros x Hx. apply Hd. by right.
      * destruct (decide (d ∈ exclude)); [done|].
        intros x [->%elem_of_singleton|Hx]%elem_of_union; [|auto].
        split; [apply Hd; left|done].
      * destruct (decide (d ∈ exclude)); [done|].
        pose proof (size_add_le d locations). lia.
    + rewrite random_loop_done in Hr by lia.
      injection Hr as <-. split; [lia|done].
Qed.

(** With fewer free cells than [count] the loop is still running when
    the draws are used up, however many they are. *)
Lemma random_loop_stuck (draws : list pos) :
  forall locations,
    Z.of_nat (free_cells env exclude) < count ->
    (forall d, d ∈ draws -> in_grid env d) ->
    (forall x, x ∈ locations -> good_location x) ->
    random_locations_loop draws count exclude locations = OutOfFuel.
Proof.
  intros locations Hfree. revert locations.
  assert (forall locations : gset pos,
            (forall x, x ∈ locations -> good_location x) ->
            Z.of_nat (size locations) < count) as Hsmall.
  { intros locations Hgood.
    assert (locations ⊆ (list_to_set (cells env) : gset pos) ∖ exclude)
      as Hsub.
    { intros x Hx. destruct (Hgood x Hx) as [Hg Hn].
      apply elem_of_difference. split; [|done].
      by apply elem_of_list_to_set, elem_of_cells. }
    apply subseteq_size in Hsub. unfold free_cells in Hfree. lia. }
  induction draws as [|d draws IH]; intros locations Hd Hgood.
  - simpl. by rewrite (proj2 (Z.ltb_lt _ _) (Hsmall locations Hgood)).
  - rewrite random_loop_step by auto. apply IH.
    + intros x Hx. apply Hd. by right.
    + destruct (decide (d ∈ exclude)); [done|].
      intros x [->%elem_of_singleton|Hx]%elem_of_union; [|auto].
      split; [apply Hd; left|done].
Qed.

(** Draws that name enough distinct free cells bring the loop to its
    end. *)
Lemma random_loop_returns (draws : list pos) :
  forall locations,
    NoDup draws ->
    (forall d, d ∈ draws -> (d ∉ exclude) /\ (d ∉ locations)) ->
    count <= Z.of_nat (size locations + length draws) ->
    exists result,
      random_locations_loop draws count exclude locations = Return result.
Proof.
  induction draws as [|d draws IH]; intros locations Hnd Hnew Henough.
  - exists locations. apply random_loop_done. simpl in Henough. lia.
  - destruct (decide (Z.of_nat (size locations) < count)) as [Hlt|Hge].
    + rewrite random_loop_step by done.
      apply NoDup_cons in Hnd as [Hnin Hnd].
      destruct (Hnew d ltac:(left)) as [Hex Hloc].
      rewrite decide_False by done. apply IH; [done| |].
      * intros x Hx. destruct (Hnew x ltac:(by right)) as [? ?].
        split; [done|]. intros [->%elem_of_singleton|?]%elem_of_union; done.
      * rewrite size_union, size_singleton by set_solver.
        simpl in Henough. lia.
    + exists locations. apply random_loop_done. lia.
Qed.

Lemma free_cells_le : (free_cells env exclude <= length (cells env))%nat.
Proof.
  unfold free_cells.
  assert (size ((list_to_set (cells env) : gset pos) ∖ exclude)
          <= size (list_to_set (cells env) : gset pos))%nat as Hd
    by (apply subseteq_size; set_solver).
  pose proof (size_list_to_set_le (cells env)). lia.
Qed.

Lemma generate_stuck (draws : list pos) :
  Z.of_nat (free_cells env exclude) < count ->
  (forall d, d ∈ draws -> in_grid env d) ->
  generate_random_locations env draws count exclude = OutOfFuel
  \/ generate_random_locations env draws count exclude = Raised.
Proof.
  intros Hfree Hd. unfold generate_random_locations.
  destruct (bool_decide (0 < count)
            && ((columns env <=? 0) || (rows env <=? 0))); [by right|left].
  apply random_loop_stuck; [done|done|].
  intros x Hx. by apply not_elem_of_empty in Hx.
Qed.
End RandomLocations.





(** * The collecting cycle away from the agent's own cell *)

Lemma ticks_add algorithm n m w :
  ticks algorithm (n + m) w
  = match ticks algorithm n w with
    | Return w' => ticks algorithm m w'
    | OutOfFuel => OutOfFuel
    | Raised => Raised
    end.
Proof.
  revert w. induction n as [|n IH]; intros w; simpl; [done|].
  destruct (tick algorithm w); [done|done|apply IH].
Qed.

Lemma dict_get_elem k v (d : list (pos * Z)) :
  dict_get k d = Some v -> (k, v) ∈ d.
Proof.
  induction d as [|[k' v'] d IH]; simpl; [done|].
  destruct (decide (k' = k)) as [->|Hne].
  - intros [= ->]. left.
  - intros H. right. auto.
Qed.

Lemma dict_elem_get k v (d : list (pos * Z)) :
  dict_wf d -> (k, v) ∈ d -> dict_get k d = Some v.
Proof.
  unfold dict_wf. induction d as [|[k' v'] d IH]; simpl.
  - by intros _ ?%elem_of_nil.
  - intros [Hnin Hnd]%NoDup_cons [[= -> ->]|Hin]%elem_of_cons.
    + by rewrite decide_True.
    + destruct (decide (k' = k)) as [->|Hne]; [|auto].
      destruct Hnin. apply list_elem_of_fmap. by exists (k, v).
Qed.

Lemma dict_pop_elem k x (d : list (pos * Z)) : x ∈ dict_pop k d -> x ∈ d.
Proof.
  induction d as [|[k' v'] d IH]; simpl; [done|].
  destruct (decide (k' = k)); [by right|].
  intros [-> | Hx]%elem_of_cons; [left|right; auto].
Qed.

Lemma dict_pop_perm k v (d : list (pos * Z)) :
  dict_get k d = Some v -> d ≡ₚ (k, v) :: dict_pop k d.
Proof.
  induction d as [|[k' v'] d IH]; simpl; [done|].
  destruct (decide (k' = k)) as [->|Hne].
  - by intros [= ->].
  - intros H. rewrite (IH H) at 1. apply Permutation_swap.
Qed.

(** The searches look at the extent and the barriers only. *)
Lemma nbr_set_tasks env d a b : nbr (set_tasks env d) a b <-> nbr env a b.
Proof. done. Qed.

Lemma chain_set_tasks env d p : chain (set_tasks env d) p <-> chain env p.
Proof.
  induction p as [|a p IH]; [done|]. destruct p as [|b p]; [done|].
  simpl in *. by rewrite IH.
Qed.

Lemma reachable_set_tasks env d s t :
  reachable (set_tasks env d) s t <-> reachable env s t.
Proof.
  unfold reachable, is_route. by setoid_rewrite chain_set_tasks.
Qed.

Lemma chain_take env (p : list pos) n : chain env p -> chain env (take n p).
Proof.
  revert n. induction p as [|a p IH]; intros n Hc; [by destruct n|].
  destruct n as [|n]; [done|]. destruct p as [|b p]; [by destruct n|].
  destruct Hc as [Hab Hc]. specialize (IH n Hc).
  destruct n as [|n]; [done|]. by split.
Qed.

Lemma last_take_S (p : list pos) j c :
  p !! j = Some c -> last (take (S j) p) = Some c.
Proof.
  revert j. induction p as [|a p IH]; intros j Hj; [done|].
  destruct j as [|j]; simpl in *.
  - injection Hj as ->. by destruct p.
  - specialize (IH j Hj). simpl in IH.
    destruct p as [|b p]; [done|]. exact IH.
Qed.

Lemma route_prefix env s t (p : list pos) j c :
  is_route env s t p -> p !! j = Some c -> is_route env s c (take (S j) p).
Proof.
  intros (Hh & _ & Hc) Hj. split; [|split].
  - by destruct p.
  - by apply last_take_S.
  - by apply chain_take.
Qed.

Lemma ticks_S algorithm n w :
  ticks algorithm (S n) w
  = match tick algorithm w with
    | Return w' => ticks algorithm n w'
    | OutOfFuel => OutOfFuel
    | Raised => Raised
    end.
Proof. reflexivity. Qed.

Section Collecting.
Variable algorithm : string.
Hypothesis known : known_algorithm algorithm.

Lemma tick_move w c rest :
  moving (agent w) = true -> path (agent w) = c :: rest ->
  tick algorithm w = Return (check_task_completion (stepped w c rest)).
Proof.
  intros Hm Hp. unfold tick, tick_action. rewrite Hm. simpl.
  unfold move. by rewrite Hp.
Qed.

Lemma tick_stop w :
  moving (agent w) = true -> path (agent w) = [] ->
  tick algorithm w
  = Return {| agent := {| position := position (agent w);
                          task_completed := task_completed (agent w);
                          completed_tasks := completed_tasks (agent w);
                          path := []; moving := false;
                          cumulative_cost := cumulative_cost (agent w) |};
              environment := environment w |}.
Proof.
  intros Hm Hp. unfold tick, tick_action. rewrite Hm. simpl.
  unfold move. by rewrite Hp.
Qed.

(** Following a stored path whose cells hold no task but the last. *)
Lemma follow_path (q : list pos) :
  forall w k v,
    moving (agent w) = true -> path (agent w) = q ++ [k] ->
    (forall c, c ∈ q ->
       dict_get c (task_locations (environment w)) = None) ->
    dict_get k (task_locations (environment w)) = Some v ->
    ticks algorithm (S (length q)) w
    = Return {| agent := {| position := k;
                            task_completed := task_completed (agent w) + 1;
                            completed_tasks := completed_tasks (agent w) ++ [v];
                            path := []; moving := true;
                            cumulative_cost :=
                              cumulative_cost (agent w)
                              + Z.of_nat (S (length q)) |};
                environment :=
                  set_tasks (environment w)
                    (dict_pop k (task_locations (environment w))) |}.
Proof.
  induction q as [|c q IH]; intros w k v Hm Hp Hq Hk.
  - rewrite ticks_S, (tick_move w k []) by done. cbn [ticks].
    unfold check_task_completion, stepped. simpl. rewrite Hk, Hm. done.
  - cbn [length]. rewrite ticks_S, (tick_move w c (q ++ [k])) by done.
    assert (check_task_completion (stepped w c (q ++ [k]))
            = stepped w c (q ++ [k])) as ->.
    { unfold check_task_completion. simpl. rewrite Hq; [done|left]. }
    rewrite (IH (stepped w c (q ++ [k])) k v); try done.
    + simpl. do 3 f_equal. lia.
    + intros c' Hc'. apply Hq. by right.
Qed.

(** The selection is the nearest open task, measured in routes. *)
Lemma first_shortest_nearest env s tasks i p :
  first_shortest algorithm env s tasks i p ->
  forall k' v' p', (k', v') ∈ tasks -> is_route env s k' p' ->
    (length p <= length p')%nat.
Proof.
  intros Hfs k' v' p' [j Hj]%list_elem_of_lookup_1 Hp'.
  destruct (run_search_post algorithm env s k' known) as ([p''|] & Hr & Hpost).
  - destruct (Hfs j k' v' p'' Hj Hr) as [Hle _].
    destruct Hpost as [_ Hmin]. specialize (Hmin p' Hp'). lia.
  - destruct Hpost. by exists p'.
Qed.

(** One round: selection, the moves along the route, and the tick that
    clears the moving flag. *)
Lemma greedy_round w :
  moving (agent w) = false ->
  dict_wf (task_locations (environment w)) ->
  task_locations (environment w) <> [] ->
  dict_get (position (agent w)) (task_locations (environment w)) = None ->
  all_reachable w ->
  exists k v p,
    dict_get k (task_locations (environment w)) = Some v
    /\ shortest_route (environment w) (position (agent w)) k p
    /\ (forall k' v' p',
          (k', v') ∈ task_locations (environment w) ->
          is_route (environment w) (position (agent w)) k' p' ->
          (length p <= length p')%nat)
    /\ ticks algorithm (moves p + 2) w = Return (arrive w k v p).
Proof.
  intros Hm Hwf Hne Hhere Hreach.
  set (env := environment w) in *. set (a := agent w) in *.
  destruct (find_nearest_task_cases algorithm w known)
    as [(_ & _ & Hnone)|(i & k & v & p & Hi & Hr & _ & Hf & Hfs)].
  { fold env a in Hnone. destruct (task_locations env) as [|[k0 v0] d] eqn:Ed;
      [done|].
    specialize (Hnone 0%nat k0 v0 eq_refl).
    apply run_search_None in Hnone; [|done]. destruct Hnone.
    apply (Hreach (position a) k0 v0); [by left|].
    fold env. rewrite Ed. left. }
  fold env a in Hi, Hr, Hf, Hfs.
  destruct (run_search_Some _ _ _ _ _ known Hr) as [Hshort _].
  pose proof (first_shortest_nearest _ _ _ _ _ Hfs) as Hnear.
  assert ((k, v) ∈ task_locations env) as Hkv
    by (by eapply list_elem_of_lookup_2).
  pose proof (dict_elem_get k v _ Hwf Hkv) as Hk.
  exists k, v, p. split; [done|]. split; [done|]. split; [done|].
  destruct Hshort as [Hroute _]. pose proof Hroute as (Hh & Hl & Hc).
  destruct p as [|s tl]; [done|]. injection Hh as ->.
  assert (position a <> k) as Hsk.
  { intros E. rewrite E in Hhere. fold env in Hhere. congruence. }
  destruct tl as [|c0 tl0]; [injection Hl as ?; done|].
  assert (last (c0 :: tl0) = Some k) as Hl' by exact Hl.
  apply last_Some in Hl' as (q & Hq).
  assert (forall c, c ∈ q -> dict_get c (task_locations env) = None) as Hfree.
  { intros c [j Hj]%list_elem_of_lookup_1.
    destruct (dict_get c (task_locations env)) as [v'|] eqn:Hcv; [|done].
    apply dict_get_elem in Hcv.
    assert ((position a :: c0 :: tl0) !! S j = Some c) as Hpj.
    { rewrite Hq. simpl. by apply lookup_app_l_Some. }
    pose proof (route_prefix _ _ _ _ _ _ Hroute Hpj) as Hpre.
    specialize (Hnear c v' _ Hcv Hpre).
    apply lookup_lt_Some in Hj.
    assert (length (c0 :: tl0) = (length q + 1)%nat) as Hlen
      by (by rewrite Hq, length_app).
    rewrite length_take in Hnear. cbn [length] in Hnear, Hlen. lia. }
  unfold moves. simpl tail. rewrite Hq, length_app. simpl length.
  replace (length q + 1 + 2)%nat with (1 + (S (length q) + 1))%nat by lia.
  rewrite ticks_add.
  assert (ticks algorithm 1 w
          = Return {| agent := follow a (q ++ [k]); environment := env |})
    as ->.
  { simpl. unfold tick, tick_action. fold a env. rewrite Hm. simpl.
    rewrite bool_decide_eq_true_2 by done. rewrite Hf. simpl.
    by rewrite Hq. }
  rewrite ticks_add.
  rewrite (follow_path q _ k v); try done.
  rewrite ticks_S, tick_stop by done. cbn [ticks].
  unfold arrive, moves. cbn [tail agent environment follow position
    task_completed completed_tasks cumulative_cost].
  rewrite length_app. fold a env. do 3 f_equal. cbn [length]. lia.
Qed.

Lemma all_reachable_arrive w k v p :
  dict_get k (task_locations (environment w)) = Some v ->
  all_reachable w -> all_reachable (arrive w k v p).
Proof.
  intros Hk Hreach s k' v' Hs Hkv'. simpl in *.
  apply reachable_set_tasks. apply (Hreach s k' v').
  - right. destruct Hs as [->|Hs].
    + apply dict_get_elem in Hk. apply list_elem_of_fmap. by exists (k, v).
    + by eapply dict_pop_keys.
  - by eapply dict_pop_elem.
Qed.

(** The cycle runs to its end in as many rounds as there are tasks. *)
Lemma greedy_collection (T : nat) :
  forall w,
    length (task_locations (environment w)) = T ->
    moving (agent w) = false ->
    dict_wf (task_locations (environment w)) ->
    dict_get (position (agent w)) (task_locations (environment w)) = None ->
    all_reachable w ->
    exists n rounds,
      greedy_rounds w rounds /\ length rounds = T
      /\ ticks algorithm n w = Return (after_rounds w rounds).
Proof.
  induction T as [|T IH]; intros w HT Hm Hwf Hhere Hreach.
  - exists 0%nat, []. split; [|done]. simpl. by apply nil_length_inv.
  - assert (task_locations (environment w) <> []) as Hne.
    { intros E. by rewrite E in HT. }
    destruct (greedy_round w Hm Hwf Hne Hhere Hreach)
      as (k & v & p & Hk & Hshort & Hnear & Hticks).
    destruct (IH (arrive w k v p)) as (n & rounds & Hg & Hlen & Hn).
    + simpl. pose proof (dict_pop_length k _ v Hk). lia.
    + done.
    + simpl. by apply dict_pop_wf.
    + simpl. by apply dict_pop_gone.
    + by apply all_reachable_arrive.
    + exists (moves p + 2 + n)%nat, ((k, v, p) :: rounds).
      split; [done|]. split; [simpl; lia|].
      by rewrite ticks_add, Hticks.
Qed.
End Collecting.

(** What the rounds add up to. *)
Lemma after_rounds_total (rounds : list round) :
  forall w, greedy_rounds w rounds ->
    let w' := after_rounds w rounds in
    task_locations (environment w') = []
    /\ cumulative_cost (agent w')
       = cumulative_cost (agent w)
         + Z.of_nat (sum_list ((fun r : round => moves r.2) <$> rounds))
    /\ completed_tasks (agent w')
       = completed_tasks (agent w) ++ ((fun r : round => r.1.2) <$> rounds)
    /\ task_completed (agent w')
       = task_completed (agent w) + Z.of_nat (length rounds)
    /\ ((fun r : round => r.1) <$> rounds)
       ≡ₚ task_locations (environment w).
Proof.
  induction rounds as [|[[k v] p] rounds IH]; intros w Hg.
  - simpl in *. rewrite Hg, app_nil_r.
    split; [done|]. split; [lia|]. split; [done|]. split; [lia|done].
  - destruct Hg as (Hk & _ & _ & Hg). destruct (IH _ Hg)
      as (Ht & Hc & Hd & Hn & Hp).
    cbn [after_rounds]. split; [done|]. split; [|split; [|split]].
    + rewrite Hc.
      change (sum_list ((fun r : round => moves r.2) <$> (k, v, p) :: rounds))
        with (moves p
              + sum_list ((fun r : round => moves r.2) <$> rounds))%nat.
      cbn [arrive agent cumulative_cost]. lia.
    + rewrite Hd. simpl. by rewrite <- app_assoc.
    + rewrite Hn. cbn [arrive agent task_completed length]. lia.
    + rewrite fmap_cons, Hp. simpl. symmetry. by apply dict_pop_perm.
Qed.

Lemma after_rounds_at_rest (rounds : list round) :
  forall w, moving (agent w) = false ->
    moving (agent (after_rounds w rounds)) = false.
Proof.
  induction rounds as [|[[k v] p] rounds IH]; intros w Hm; [done|].
  by apply IH.
Qed.


Example collecting_env33 :
  exists n w', ticks "IDA*" n {| agent := Agent_init; environment := env33 |}
               = Return w'
               /\ task_locations (environment w') = []
               /\ cumulative_cost (agent w') = 4
               /\ completed_tasks (agent w') = [1].
Proof. exists 6%nat. eexists. vm_compute. repeat split; reflexivity. Qed.

(** * Further properties of the grid and of the heuristic *)

(** X1: [get_neighbors] lists, without repetition, at most four cells:
    exactly the cells one step up, down, left or right of (x, y) that are
    within bounds and are not barriers; the cell itself is never among
    them. *)
Theorem get_neighbors_spec (env : Environment) (x y : Z) :
  NoDup (get_neighbors env x y)
  /\ (length (get_neighbors env x y) <= 4)%nat
  /\ ((x, y) ∉ get_neighbors env x y)
  /\ forall b, b ∈ get_neighbors env x y <->
       (b = (x, y - 1) \/ b = (x, y + 1) \/ b = (x - 1, y) \/ b = (x + 1, y))
       /\ is_within_bounds env b.1 b.2 = true
       /\ is_barrier env b.1 b.2 = false.
Proof.
  assert (forall b, b ∈ get_neighbors env x y <->
            (b = (x, y - 1) \/ b = (x, y + 1)
             \/ b = (x - 1, y) \/ b = (x + 1, y))
            /\ is_within_bounds env b.1 b.2 = true
            /\ is_barrier env b.1 b.2 = false) as Hiff.
  { intros b. rewrite (nbr_iff env (x, y) b). unfold in_grid, is_barrier.
    simpl. rewrite bool_decide_eq_false. destruct b; simpl. tauto. }
  split; [|split; [|split; [|done]]].
  - unfold get_neighbors, directions. simpl.
    repeat (match goal with
            | |- context [if ?c then _ else _] => destruct c
            end);
      repeat (apply NoDup_cons; split;
              [rewrite ?elem_of_cons, ?elem_of_nil;
               intros H; repeat destruct H as [H|H];
               try (injection H; lia); done|]);
      apply NoDup_nil; done.
  - unfold get_neighbors, directions. simpl.
    repeat (match goal with
            | |- context [if ?c then _ else _] => destruct c
            end); simpl; lia.
  - intros [Hd _]%Hiff.
    destruct Hd as [H|[H|[H|H]]]; injection H; lia.
Qed.

(** X2: the heuristic is a distance: never negative, zero exactly between
    a cell and itself, the same in both directions, and never more than
    the sum over a detour. *)
Theorem heuristic_metric (a b c : pos) :
  0 <= heuristic a b
  /\ (heuristic a b = 0 <-> a = b)
  /\ heuristic a b = heuristic b a
  /\ heuristic a c <= heuristic a b + heuristic b c.
Proof.
  unfold heuristic. destruct a as [ax ay], b as [bx by_], c as [cx cy].
  simpl. split; [lia|]. split; [|split; lia].
  split.
  - intros H. f_equal; lia.
  - intros [= -> ->]. lia.
Qed.

(** X3: the heuristic changes by at most one over a move, and is never
    more than the number of moves of a route to the target: it never
    overestimates, whatever the barriers. *)
Theorem heuristic_consistent_admissible (env : Environment) (t : pos) :
  (forall a b, b ∈ get_neighbors env a.1 a.2 ->
     heuristic a t - 1 <= heuristic b t <= heuristic a t + 1)
  /\ (forall a p, is_route env a t p -> heuristic a t <= Z.of_nat (moves p)).
Proof.
  split.
  - intros a b Hab.
    pose proof (heuristic_nbr env a b t Hab).
    pose proof (heuristic_nbr_back env a b t Hab). lia.
  - intros a p Hp. apply (heuristic_admissible env). by apply route_walk.
Qed.

(** * The reconstruction of a route from [came_from] *)

Lemma linked_snoc cf (q : list pos) prev current :
  linked cf q -> last q = Some prev -> cf !! current = Some prev ->
  linked cf (q ++ [current]).
Proof.
  induction q as [|a q IH]; [done|]. intros Hq Hl Hc.
  destruct q as [|b q].
  - injection Hl as ->. by split.
  - destruct Hq as [Hab Hq]. split; [done|]. by apply IH.
Qed.

Lemma reconstruct_loop_spec fuel :
  forall cf current acc p,
    reconstruct_loop fuel cf current acc = Return p ->
    exists q, p = q ++ acc /\ last q = Some current
              /\ (exists r, head q = Some r /\ cf !! r = None)
              /\ linked cf q /\ (length q <= S fuel)%nat.
Proof.
  induction fuel as [|fuel IH]; intros cf current acc p; simpl;
    destruct (cf !! current) as [prev|] eqn:Hc; try done.
  - intros [= <-]. exists [current]. repeat split; eauto.
  - intros (q & -> & Hl & (r & Hh & Hr) & Hq & Hlen)%IH.
    exists (q ++ [current]). split; [by rewrite <- app_assoc|].
    split; [by rewrite last_snoc|]. split; [|split].
    + exists r. split; [by destruct q|done].
    + by eapply linked_snoc.
    + rewrite length_app. simpl. lia.
  - intros [= <-]. exists [current]. repeat split; eauto. simpl. lia.
Qed.

(** X4: when [reconstruct_path] returns, the list ends with the cell it
    was called for, begins with a cell that is not a key of [came_from],
    and every cell of it is the [came_from] entry of the next one; it
    takes one iteration of the loop per cell after the first. *)
Theorem reconstruct_path_spec (fuel : nat) (cf : gmap pos pos)
    (current : pos) (p : list pos) :
  reconstruct_path fuel cf current = Return p ->
  last p = Some current
  /\ (exists r, head p = Some r /\ cf !! r = None)
  /\ linked cf p
  /\ (length p <= S fuel)%nat.
Proof.
  intros (q & -> & H)%reconstruct_loop_spec. by rewrite app_nil_r.
Qed.

Lemma reconstruct_path_spec_witness :
  last [(0, 0); (0, 1); (0, 2)] = Some (0, 2)
  /\ (exists r, head [(0, 0); (0, 1); (0, 2)] = Some r
                /\ ({[ (0, 2) := (0, 1); (0, 1) := (0, 0) ]} : gmap pos pos)
                   !! r = None)
  /\ linked {[ (0, 2) := (0, 1); (0, 1) := (0, 0) ]}
       [(0, 0); (0, 1); (0, 2)]
  /\ (length [(0, 0); (0, 1); (0, 2)] <= 3)%nat.
Proof.
  apply (reconstruct_path_spec 2 {[ (0, 2) := (0, 1); (0, 1) := (0, 0) ]}
           (0, 2)).
  vm_compute. reflexivity.
Defined.

(** X5: when [came_from] leads from the cell round in a circle (the cells
    that can be met all being keys), the loop of [reconstruct_path] does
    not come to an end, whatever the number of iterations allowed. *)
Theorem reconstruct_path_cycle (cf : gmap pos pos) (visited : gset pos)
    (current : pos) (fuel : nat) :
  current ∈ visited ->
  (forall n, n ∈ visited -> exists m, cf !! n = Some m /\ m ∈ visited) ->
  reconstruct_path fuel cf current = OutOfFuel.
Proof.
  intros Hc Hclosed. unfold reconstruct_path. generalize (@nil pos).
  revert current Hc. induction fuel as [|fuel IH]; intros current Hc acc;
    destruct (Hclosed current Hc) as (m & Hm & Hmv); simpl; rewrite Hm;
    [done|by apply IH].
Qed.

Lemma reconstruct_path_cycle_witness :
  reconstruct_path 50 {[ (0, 0) := (0, 1); (0, 1) := (0, 0) ]} (0, 0)
  = OutOfFuel.
Proof.
  apply (reconstruct_path_cycle _ {[ (0, 0); (0, 1) ]}).
  - set_solver.
  - intros n [->%elem_of_singleton| ->%elem_of_singleton]%elem_of_union.
    + exists (0, 1). split; [by_evaluation|set_solver].
    + exists (0, 0). split; [by_evaluation|set_solver].
Defined.

(** * Shape of the routes that the searches return *)

Lemma route_shortcut env (p : list pos) :
  forall s t, is_route env s t p ->
    exists p', is_route env s t p' /\ NoDup p'
               /\ ((length p' < length p)%nat \/ p' = p).
Proof.
  induction p as [|a p IH]; intros s t (Hh & Hl & Hc); [done|].
  injection Hh as ->. destruct p as [|b p].
  - exists [s]. split; [by repeat split|].
    split; [apply NoDup_singleton|by right].
  - destruct Hc as [Hab Hc].
    destruct (IH b t) as (p' & (Hh' & Hl' & Hc') & Hnd & Hlen);
      [by repeat split|].
    assert (length p' <= length (b :: p))%nat as Hle
      by (destruct Hlen as [?| ->]; lia).
    destruct (decide (s ∈ p')) as [Hin|Hnin].
    + apply list_elem_of_split in Hin as (l1 & l2 & ->).
      exists (s :: l2). split; [|split].
      * split; [done|]. split; [|by eapply chain_app_r].
        by rewrite last_app_cons in Hl'.
      * by apply NoDup_app in Hnd as (_ & _ & ?).
      * left. rewrite length_app in Hle. simpl in *. lia.
    + exists (s :: p'). split; [|split].
      * split; [done|]. split.
        -- destruct p'; [done|]. exact Hl'.
        -- destruct p' as [|b' p']; [done|]. injection Hh' as ->.
           by split.
      * by apply NoDup_cons.
      * destruct Hlen as [Hlt| ->]; [left; simpl in *; lia|by right].
Qed.

Lemma shortest_route_NoDup env s t p : shortest_route env s t p -> NoDup p.
Proof.
  intros [Hp Hmin].
  destruct (route_shortcut env p s t Hp) as (p' & Hp' & Hnd & [Hlt| ->]);
    [|done].
  specialize (Hmin p' Hp'). lia.
Qed.

Lemma chain_cells env a (p : list pos) :
  chain env (a :: p) ->
  forall c, c ∈ p -> in_grid env c /\ c ∉ barrier_locations env.
Proof.
  revert a. induction p as [|b p IH]; intros a Hc c Hin.
  - by apply elem_of_nil in Hin.
  - destruct Hc as [Hab Hc]. apply elem_of_cons in Hin as [->|Hin].
    + apply nbr_iff in Hab. tauto.
    + by eapply IH.
Qed.

(** X6: the route that either search returns visits no cell twice, has
    no more moves than the grid has cells, and every cell of it after the
    first is within bounds and is not a barrier. *)
Theorem returned_route_simple (env : Environment) (start goal : pos)
    (p : list pos) :
  a_star_search env start goal = Return (Some p)
  \/ ida_star_search env start goal = Return (Some p) ->
  NoDup p
  /\ (moves p <= Z.to_nat (columns env) * Z.to_nat (rows env))%nat
  /\ forall c, c ∈ tail p ->
       is_within_bounds env c.1 c.2 = true /\ is_barrier env c.1 c.2 = false.
Proof.
  intros Hret.
  assert (shortest_route env start goal p) as Hs.
  { destruct Hret as [Hr|Hr].
    - destruct (a_star_search_post env start goal) as (r & Hr' & Hpost).
      rewrite Hr in Hr'. by injection Hr' as <-.
    - destruct (ida_star_search_post env start goal) as (r & Hr' & Hpost).
      rewrite Hr in Hr'. by injection Hr' as <-. }
  pose proof (shortest_route_NoDup _ _ _ _ Hs) as Hnd.
  destruct Hs as [(Hh & _ & Hc) _]. destruct p as [|a p]; [done|].
  injection Hh as ->. split; [done|]. split.
  - assert (ida_path env start (start :: p)) as Hip.
    { split; [done|done|done|].
      intros n [->|Hn]%elem_of_cons; [by left|right].
      by destruct (chain_cells env start p Hc n Hn). }
    apply ida_path_length in Hip. unfold cell_bound, moves in *.
    simpl in *. lia.
  - intros c Hin. destruct (chain_cells env start p Hc c Hin) as [Hg Hb].
    split; [done|]. by apply bool_decide_eq_false.
Qed.

Lemma returned_route_simple_witness :
  NoDup [(0, 0); (0, 1); (0, 2); (1, 2); (2, 2)]
  /\ Nat.le (moves [(0, 0); (0, 1); (0, 2); (1, 2); (2, 2)])
       (Z.to_nat (columns env33) * Z.to_nat (rows env33))%nat
  /\ forall c, c ∈ tail [(0, 0); (0, 1); (0, 2); (1, 2); (2, 2)] ->
       is_within_bounds env33 c.1 c.2 = true
       /\ is_barrier env33 c.1 c.2 = false.
Proof.
  apply (returned_route_simple env33 (0, 0) (2, 2)).
  left. vm_compute. reflexivity.
Defined.



(** * Further properties of the agent *)

(** X8: [move] takes the first cell off the stored path, if there is one,
    makes it the agent's position and adds one to the cumulative cost;
    with an empty path it only clears the moving flag.  Either way the
    open tasks and the completed tasks add up to what they were, counted
    by the list and by the counter, the extent and the barriers are
    untouched, and after a step the agent's cell holds no open task. *)
Theorem move_conserves (w : World) :
  let w' := move w in
  let a := agent w in
  let a' := agent w' in
  path a' = tail (path a)
  /\ (length (task_locations (environment w')) + length (completed_tasks a')
      = length (task_locations (environment w)) + length (completed_tasks a))%nat
  /\ task_completed a' + Z.of_nat (length (task_locations (environment w')))
     = task_completed a + Z.of_nat (length (task_locations (environment w)))
  /\ columns (environment w') = columns (environment w)
  /\ rows (environment w') = rows (environment w)
  /\ barrier_locations (environment w') = barrier_locations (environment w)
  /\ (path a = [] ->
        position a' = position a /\ moving a' = false
        /\ cumulative_cost a' = cumulative_cost a
        /\ environment w' = environment w)
  /\ (forall c rest, path a = c :: rest ->
        position a' = c /\ moving a' = moving a
        /\ cumulative_cost a' = cumulative_cost a + 1
        /\ (dict_wf (task_locations (environment w)) ->
            dict_get c (task_locations (environment w')) = None)).
Proof.
  intros w' a a'. subst a' w' a. unfold move.
  destruct (path (agent w)) as [|c rest] eqn:Hp.
  - simpl. repeat split; try done.
  - unfold check_task_completion. simpl.
    destruct (dict_get c (task_locations (environment w))) as [v|] eqn:Hc;
      simpl.
    + pose proof (dict_pop_length c _ v Hc) as Hlen.
      split; [done|]. split; [rewrite length_app; simpl; lia|].
      split; [lia|]. split; [done|]. split; [done|]. split; [done|].
      split; [done|]. intros c' rest' [= <- <-].
      split; [done|]. split; [done|]. split; [done|].
      intros Hwf. by apply dict_pop_gone.
    + split; [done|]. split; [done|]. split; [done|]. split; [done|].
      split; [done|]. split; [done|]. split; [done|].
      intros c' rest' [= <- <-]. by repeat split.
Qed.

(** X9: [check_task_completion] done twice is [check_task_completion]
    done once: the task it takes is no longer there for the second call. *)
Theorem check_task_completion_idempotent (w : World) :
  dict_wf (task_locations (environment w)) ->
  check_task_completion (check_task_completion w) = check_task_completion w.
Proof.
  intros Hwf. unfold check_task_completion at 2 3.
  destruct (dict_get (position (agent w)) (task_locations (environment w)))
    as [v|] eqn:Hget.
  - unfold check_task_completion. simpl. by rewrite dict_pop_gone.
  - unfold check_task_completion. by rewrite Hget.
Qed.

Lemma check_task_completion_idempotent_witness :
  let w := {| agent := {| position := (2, 2); task_completed := 0;
                          completed_tasks := []; path := []; moving := true;
                          cumulative_cost := 4 |};
              environment := env33 |} in
  check_task_completion (check_task_completion w) = check_task_completion w.
Proof.
  intros w. apply (check_task_completion_idempotent w). apply NoDup_singleton.
Defined.

(** X10: the algorithm string matters only when there is a task to search
    for: without open tasks [find_nearest_task] returns and changes
    nothing, whatever the string; with an open task and a string that is
    neither "A*" nor "IDA*" it raises, [path] being unbound. *)
Theorem find_nearest_task_algorithm_string (algorithm : string) (w : World) :
  (task_locations (environment w) = [] ->
     find_nearest_task algorithm w = Return w)
  /\ (~ known_algorithm algorithm ->
      task_locations (environment w) <> [] ->
      find_nearest_task algorithm w = Raised).
Proof.
  split.
  - intros Ht. unfold find_nearest_task. by rewrite Ht.
  - intros Hunknown Ht. unfold find_nearest_task.
    destruct (task_locations (environment w)) as [|[k v] tasks]; [done|].
    simpl. unfold run_search.
    destruct (String.eqb algorithm "A*") eqn:Ea.
    { apply String.eqb_eq in Ea. destruct Hunknown. by left. }
    destruct (String.eqb algorithm "IDA*") eqn:Ei.
    { apply String.eqb_eq in Ei. destruct Hunknown. by right. }
    done.
Qed.

(** * The agent keeps to the free cells *)

Lemma tick_chain algorithm w :
  known_algorithm algorithm ->
  chain (environment w) (position (agent w) :: path (agent w)) ->
  exists w',
    tick algorithm w = Return w'
    /\ chain (environment w') (position (agent w') :: path (agent w'))
    /\ columns (environment w') = columns (environment w)
    /\ rows (environment w') = rows (environment w)
    /\ barrier_locations (environment w') = barrier_locations (environment w)
    /\ (position (agent w') = position (agent w)
        \/ nbr (environment w) (position (agent w)) (position (agent w'))).
Proof.
  intros known Hc. unfold tick. destruct (tick_action w).
  - destruct (find_nearest_task_cases algorithm w known)
      as [(Hf & _)|(i & k & v & p & _ & Hr & _ & Hf & _)]; rewrite Hf.
    + exists w. repeat split; auto.
    + eexists. split; [done|]. simpl.
      destruct (run_search_Some _ _ _ _ _ known Hr) as [[(Hh & _ & Hp) _] _].
      destruct p as [|s tl]; [done|]. injection Hh as ->.
      repeat split; auto.
  - exists (move w). split; [done|]. unfold move.
    destruct (path (agent w)) as [|c rest] eqn:Hp.
    + simpl. repeat split; auto.
    + destruct Hc as [Hn Hc]. unfold check_task_completion.
      cbn [agent environment position].
      destruct (dict_get c (task_locations (environment w)));
        cbn [agent environment position path set_tasks columns rows
             barrier_locations].
      * split; [by apply chain_set_tasks|]. repeat split; auto.
      * split; [done|]. repeat split; auto.
  - exists w. repeat split; auto.
Qed.



(** * Generating the tasks and building the environment *)

Lemma draw_fresh_spec (draws : list pos) tasks location rest :
  draw_fresh draws tasks = Return (location, rest) ->
  dict_get location tasks = None
  /\ exists skipped, draws = skipped ++ location :: rest.
Proof.
  induction draws as [|d draws IH]; simpl; [done|].
  destruct (dict_get d tasks) eqn:Hd.
  - intros (Hl & skipped & ->)%IH. split; [done|]. by exists (d :: skipped).
  - intros [= <- <-]. split; [done|]. by exists [].
Qed.

Lemma dict_wf_snoc (tasks : list (pos * Z)) k v :
  dict_wf tasks -> dict_get k tasks = None -> dict_wf (tasks ++ [(k, v)]).
Proof.
  unfold dict_wf. intros Hwf Hk%dict_get_None. rewrite fmap_app.
  apply NoDup_app. split; [done|]. split; [|apply NoDup_singleton].
  intros x Hx ->%list_elem_of_singleton. done.
Qed.

Lemma seqZ_S m n : seqZ m (Z.of_nat (S n)) = m :: seqZ (m + 1) (Z.of_nat n).
Proof.
  rewrite seqZ_cons by lia. f_equal. f_equal; lia.
Qed.

Lemma tasks_loop_spec env n :
  forall task_number (draws : list pos) tasks tasks' rest,
    dict_wf tasks ->
    (forall d, d ∈ draws -> in_grid env d) ->
    tasks_loop n task_number draws tasks = Return (tasks', rest) ->
    exists new used,
      tasks' = tasks ++ new /\ draws = used ++ rest
      /\ dict_wf tasks'
      /\ new.*2 = seqZ task_number (Z.of_nat n)
      /\ forall k, k ∈ new.*1 -> in_grid env k.
Proof.
  induction n as [|n IH]; intros tn draws tasks tasks' rest Hwf Hd Hr.
  - injection Hr as <- <-. exists [], []. rewrite app_nil_r.
    split; [done|]. split; [done|]. split; [done|]. split; [done|].
    intros k Hk. by apply elem_of_nil in Hk.
  - simpl in Hr.
    destruct (draw_fresh draws tasks) as [| |[location draws']] eqn:Hf;
      try done.
    destruct (draw_fresh_spec _ _ _ _ Hf) as (Hfresh & skipped & ->).
    apply IH in Hr as (new & used & -> & -> & Hwf' & Hids & Hkeys).
    + exists ((location, tn) :: new), (skipped ++ location :: used).
      split; [by rewrite <- app_assoc|]. split; [by rewrite <- app_assoc|].
      split; [done|]. split; [by rewrite seqZ_S, fmap_cons, Hids|].
      intros k [->|Hk]%elem_of_cons; [|auto].
      apply Hd. apply elem_of_app. right. left.
    + by apply dict_wf_snoc.
    + intros d Hin. apply Hd. apply elem_of_app. right. by right.
Qed.

Lemma keys_bounded env (tasks : list (pos * Z)) :
  dict_wf tasks -> (forall k, k ∈ tasks.*1 -> in_grid env k) ->
  (length tasks <= free_cells env ∅)%nat.
Proof.
  intros Hwf Hk. rewrite <- (length_fmap fst).
  rewrite <- (size_list_to_set (C := gset pos)) by done.
  unfold free_cells. apply subseteq_size. intros x Hx%elem_of_list_to_set.
  apply elem_of_difference. split; [|apply not_elem_of_empty].
  by apply elem_of_list_to_set, elem_of_cells, Hk.
Qed.

Lemma draw_fresh_grid (draws : list pos) tasks :
  draw_fresh draws tasks = OutOfFuel
  \/ exists location rest, draw_fresh draws tasks = Return (location, rest).
Proof.
  induction draws as [|d draws IH]; simpl; [by left|].
  destruct (dict_get d tasks); [done|right; eauto].
Qed.

Lemma tasks_loop_stuck env n :
  forall task_number (draws : list pos) tasks,
    dict_wf tasks ->
    (forall k, k ∈ tasks.*1 -> in_grid env k) ->
    (forall d, d ∈ draws -> in_grid env d) ->
    (free_cells env ∅ < length tasks + n)%nat ->
    tasks_loop n task_number draws tasks = OutOfFuel.
Proof.
  induction n as [|n IH]; intros tn draws tasks Hwf Hk Hd Hmany.
  - pose proof (keys_bounded env tasks Hwf Hk). lia.
  - simpl. destruct (draw_fresh_grid draws tasks)
      as [->|(location & rest & Hf)]; [done|].
    rewrite Hf. destruct (draw_fresh_spec _ _ _ _ Hf)
      as (Hfresh & skipped & ->).
    apply IH.
    + by apply dict_wf_snoc.
    + rewrite fmap_app. intros k [Hin | ->%list_elem_of_singleton]%elem_of_app;
        [auto|].
      apply Hd. apply elem_of_app. right. left.
    + intros d Hin. apply Hd. apply elem_of_app. right. by right.
    + rewrite length_app. simpl. lia.
Qed.

Lemma tasks_loop_returns n :
  forall task_number (draws : list pos) tasks,
    NoDup draws ->
    (forall d, d ∈ draws -> dict_get d tasks = None) ->
    (n <= length draws)%nat ->
    exists tasks' rest,
      tasks_loop n task_number draws tasks = Return (tasks', rest).
Proof.
  induction n as [|n IH]; intros tn draws tasks Hnd Hfresh Hlen.
  - by exists tasks, draws.
  - destruct draws as [|d draws]; [simpl in Hlen; lia|].
    apply NoDup_cons in Hnd as [Hnin Hnd]. simpl.
    rewrite (Hfresh d) by left. apply IH; [done| |simpl in Hlen; lia].
    intros x Hx. apply dict_get_None. rewrite fmap_app.
    intros [Hin | ->%list_elem_of_singleton]%elem_of_app; [|done].
    by apply dict_get_None in Hin; [|apply Hfresh; right].
Qed.

Lemma generate_tasks_sound env count (draws : list pos) tasks rest :
  (forall d, d ∈ draws -> in_grid env d) ->
  generate_tasks env draws count = Return (tasks, rest) ->
  dict_wf tasks
  /\ tasks.*2 = seqZ 1 count
  /\ (forall k, k ∈ tasks.*1 -> in_grid env k)
  /\ exists used, draws = used ++ rest.
Proof.
  intros Hd. unfold generate_tasks.
  destruct (bool_decide (0 < count)
            && ((columns env <=? 0) || (rows env <=? 0))); [done|].
  intros (new & used & -> & -> & Hwf & Hids & Hkeys)%(tasks_loop_spec env);
    [|apply NoDup_nil; done|done].
  split; [done|]. split; [|split; [done|by exists used]].
  simpl. rewrite Hids. destruct (decide (0 <= count)).
  - by rewrite Z2Nat.id.
  - replace (Z.of_nat (Z.to_nat count)) with 0 by lia.
    unfold seqZ. by replace (Z.to_nat count) with 0%nat by lia.
Qed.

Lemma generate_random_locations_sound env count exclude
    (draws : list pos) result :
  (forall d, d ∈ draws -> in_grid env d) ->
  generate_random_locations env draws count exclude = Return result ->
  Z.of_nat (size result) = Z.max 0 count
  /\ forall x, x ∈ result -> in_grid env x /\ x ∉ exclude.
Proof.
  intros Hd. unfold generate_random_locations.
  destruct (bool_decide (0 < count)
            && ((columns env <=? 0) || (rows env <=? 0))); [done|].
  intros Hr. eapply random_loop_sound in Hr; [done|done| |].
  - intros x Hx. by apply not_elem_of_empty in Hx.
  - rewrite size_empty. lia.
Qed.

(** X12: when [generate_tasks] returns, the dictionary holds the task
    numbers 1 to [count] in this order (nothing for a [count] below one),
    each on a cell of its own within bounds, and the draws left over are
    the end of the draws given.  With [count] at most the number of cells
    there are draws on which it returns; with more tasks asked for than
    there are cells it never returns, whatever is drawn. *)
Theorem generate_tasks_spec (env : Environment) (count : Z) :
  (forall draws tasks rest,
     (forall d, d ∈ draws -> in_grid env d) ->
     generate_tasks env draws count = Return (tasks, rest) ->
     dict_wf tasks
     /\ tasks.*2 = seqZ 1 count
     /\ (forall k, k ∈ tasks.*1 -> in_grid env k)
     /\ exists used, draws = used ++ rest)
  /\ (count <= Z.of_nat (free_cells env ∅) ->
        exists draws tasks rest,
          (forall d, d ∈ draws -> in_grid env d)
          /\ generate_tasks env draws count = Return (tasks, rest))
  /\ (Z.of_nat (free_cells env ∅) < count ->
        forall draws,
          (forall d, d ∈ draws -> in_grid env d) ->
          generate_tasks env draws count = OutOfFuel
          \/ generate_tasks env draws count = Raised).
Proof.
  split; [|split].
  - intros draws tasks rest. apply generate_tasks_sound.
  - intros Hcount.
    set (free := (list_to_set (cells env) : gset pos) ∖ ∅).
    destruct (tasks_loop_returns (Z.to_nat count) 1 (elements free) [])
      as (tasks & rest & Hr).
    + apply NoDup_elements.
    + done.
    + unfold free_cells in Hcount. fold free in Hcount.
      unfold size, set_size in Hcount. simpl in *. lia.
    + exists (elements free), tasks, rest. split.
      * intros d Hd%elem_of_elements.
        apply elem_of_difference in Hd as [Hd%elem_of_list_to_set _].
        by apply elem_of_cells.
      * unfold generate_tasks.
        destruct (bool_decide (0 < count)
                  && ((columns env <=? 0) || (rows env <=? 0))) eqn:E;
          [|done].
        apply andb_true_iff in E as [Hpos%bool_decide_eq_true Hempty].
        pose proof (free_cells_le env ∅) as Hle.
        rewrite length_cells in Hle.
        assert (Z.to_nat (columns env) = 0%nat \/ Z.to_nat (rows env) = 0%nat)
          as [Hz|Hz] by lia; rewrite Hz in Hle; lia.
  - intros Hmany draws Hd. unfold generate_tasks.
    destruct (bool_decide (0 < count)
              && ((columns env <=? 0) || (rows env <=? 0))); [by right|left].
    apply (tasks_loop_stuck env); [apply NoDup_nil; done| |done|simpl; lia].
    intros k Hk. by apply elem_of_nil in Hk.
Qed.

Lemma generate_tasks_spec_witness :
  exists draws tasks rest,
    (forall d, d ∈ draws -> in_grid env33 d)
    /\ generate_tasks env33 draws 5 = Return (tasks, rest).
Proof.
  apply (proj1 (proj2 (generate_tasks_spec env33 5))).
  vm_compute. discriminate.
Defined.

(** X13: when [Environment.__init__] returns, [grid_size] was not zero,
    the extent is the floor quotient of the window size by it, the tasks
    are numbered 1 to [num_tasks] on distinct cells within bounds, and the
    barriers are exactly [num_barriers] cells within bounds (none for a
    negative number), none of which holds a task. *)
Theorem Environment_init_spec (width height grid_size num_tasks
    num_barriers : Z) (draws : list pos) (env : Environment) :
  (forall d, d ∈ draws ->
     0 <= d.1 < width / grid_size /\ 0 <= d.2 < height / grid_size) ->
  Environment_init width height grid_size num_tasks num_barriers draws
  = Return env ->
  grid_size <> 0
  /\ columns env = width / grid_size
  /\ rows env = height / grid_size
  /\ dict_wf (task_locations env)
  /\ (task_locations env).*2 = seqZ 1 num_tasks
  /\ (forall k, k ∈ (task_locations env).*1 -> in_grid env k)
  /\ Z.of_nat (size (barrier_locations env)) = Z.max 0 num_barriers
  /\ (forall b, b ∈ barrier_locations env ->
        in_grid env b /\ b ∉ (task_locations env).*1).
Proof.
  intros Hd. unfold Environment_init.
  destruct (decide (grid_size = 0)) as [|Hg]; [done|].
  set (env0 := {| columns := width / grid_size; rows := height / grid_size;
                  task_locations := []; barrier_locations := ∅ |}).
  assert (forall d, d ∈ draws -> in_grid env0 d) as Hd0.
  { intros d Hin. specialize (Hd d Hin).
    unfold in_grid, is_within_bounds. simpl. lia. }
  destruct (generate_tasks env0 draws num_tasks)
    as [| |[tasks draws']] eqn:Ht; try done.
  destruct (generate_tasks_sound env0 num_tasks draws tasks draws' Hd0 Ht)
    as (Hwf & Hids & Hkeys & used & Hused).
  destruct (generate_random_locations env0 draws' num_barriers
              (list_to_set tasks.*1)) as [| |barriers] eqn:Hb; try done.
  intros [= <-]. simpl.
  assert (forall d, d ∈ draws' -> in_grid env0 d) as Hd1.
  { intros d Hin. apply Hd0. rewrite Hused. apply elem_of_app. by right. }
  destruct (generate_random_locations_sound env0 num_barriers
              (list_to_set tasks.*1) draws' barriers Hd1 Hb)
    as (Hsize & Hgood).
  split; [done|]. split; [done|]. split; [done|]. split; [done|].
  split; [done|]. split; [exact Hkeys|]. split; [done|].
  intros b Hin. destruct (Hgood b Hin) as [Hgrid Hex].
  split; [exact Hgrid|]. intros Hk. apply Hex. by apply elem_of_list_to_set.
Qed.

Lemma Environment_init_spec_witness :
  let env := {| columns := 2; rows := 2; task_locations := [((0, 0), 1)];
                barrier_locations := {[ (1, 1) ]} |} in
  40 <> 0
  /\ columns env = 80 / 40
  /\ rows env = 80 / 40
  /\ dict_wf (task_locations env)
  /\ (task_locations env).*2 = seqZ 1 1
  /\ (forall k, k ∈ (task_locations env).*1 -> in_grid env k)
  /\ Z.of_nat (size (barrier_locations env)) = Z.max 0 1
  /\ (forall b, b ∈ barrier_locations env ->
        in_grid env b /\ b ∉ (task_locations env).*1).
Proof.
  intros env.
  apply (Environment_init_spec 80 80 40 1 1 [(0, 0); (0, 0); (1, 1)] env).
  - change (80 / 40) with 2. intros d Hd.
    rewrite !elem_of_cons, elem_of_nil in Hd.
    destruct Hd as [-> | [-> | [-> | []]]]; simpl; lia.
  - vm_compute. reflexivity.
Defined.


(** * What the ticks of the simulation conserve *)

Lemma dict_pop_sublist k (d : list (pos * Z)) : sublist (dict_pop k d) d.
Proof.
  induction d as [|[k' v'] d IH]; simpl; [done|].
  destruct (decide (k' = k)); [by apply sublist_cons|by apply sublist_skip].
Qed.

Lemma find_nearest_task_agent algorithm w w' :
  find_nearest_task algorithm w = Return w' ->
  environment w' = environment w
  /\ completed_tasks (agent w') = completed_tasks (agent w)
  /\ task_completed (agent w') = task_completed (agent w)
  /\ cumulative_cost (agent w') = cumulative_cost (agent w).
Proof.
  unfold find_nearest_task.
  destruct (nearest_loop _ _ _ _ _ _) as [| |[nt sp]]; try done.
  destruct (truthy sp); by intros [= <-].
Qed.

Lemma tick_conserves algorithm w w' :
  tick algorithm w = Return w' ->
  sublist (task_locations (environment w')) (task_locations (environment w))
  /\ (exists ids, completed_tasks (agent w') = completed_tasks (agent w) ++ ids
        /\ (length (task_locations (environment w')) + length ids
            = length (task_locations (environment w)))%nat
        /\ task_completed (agent w')
           = task_completed (agent w) + Z.of_nat (length ids))
  /\ cumulative_cost (agent w) <= cumulative_cost (agent w')
     <= cumulative_cost (agent w) + 1.
Proof.
  unfold tick. destruct (tick_action w).
  - intros (-> & -> & -> & ->)%find_nearest_task_agent.
    split; [done|]. split; [|lia]. exists []. rewrite app_nil_r.
    split; [done|]. split; simpl; lia.
  - intros [= <-]. unfold move.
    destruct (path (agent w)) as [|c rest]; simpl.
    + split; [done|]. split; [|lia]. exists []. rewrite app_nil_r.
      split; [done|]. split; simpl; lia.
    + unfold check_task_completion. simpl.
      destruct (dict_get c (task_locations (environment w))) as [v|] eqn:Hc;
        simpl.
      * split; [apply dict_pop_sublist|]. split; [|lia]. exists [v].
        split; [done|]. pose proof (dict_pop_length c _ v Hc).
        split; simpl; lia.
      * split; [done|]. split; [|lia]. exists []. rewrite app_nil_r.
        split; [done|]. split; simpl; lia.
  - intros [= <-]. split; [done|]. split; [|lia]. exists [].
    rewrite app_nil_r. split; [done|]. split; simpl; lia.
Qed.

(** X15: over any number of ticks that the simulation gets through, with
    any algorithm string, no task is lost or made up: the open tasks are
    what is left, in their order, of the tasks there were, the list of
    completed tasks has grown at its end by as many entries as tasks have
    gone and the counter of completed tasks by the same number, and the
    cumulative cost has grown by at most one per tick and never gone
    down. *)
Theorem ticks_conserve (algorithm : string) (n : nat) (w w' : World) :
  ticks algorithm n w = Return w' ->
  sublist (task_locations (environment w')) (task_locations (environment w))
  /\ (exists ids, completed_tasks (agent w') = completed_tasks (agent w) ++ ids
        /\ (length (task_locations (environment w')) + length ids
            = length (task_locations (environment w)))%nat
        /\ task_completed (agent w')
           = task_completed (agent w) + Z.of_nat (length ids))
  /\ cumulative_cost (agent w) <= cumulative_cost (agent w')
     <= cumulative_cost (agent w) + Z.of_nat n.
Proof.
  revert w. induction n as [|n IH]; intros w.
  - intros [= <-]. split; [done|]. split; [|lia]. exists [].
    rewrite app_nil_r. split; [done|]. split; simpl; lia.
  - rewrite ticks_S. destruct (tick algorithm w) as [| |w1] eqn:Ht; try done.
    intros (Hsub & (ids & Hids & Hlen & Hcount) & Hcost)%IH.
    destruct (tick_conserves algorithm w w1 Ht)
      as (Hsub1 & (ids1 & Hids1 & Hlen1 & Hcount1) & Hcost1).
    split; [by etrans|]. split; [|lia].
    exists (ids1 ++ ids). rewrite Hids, Hids1, <- app_assoc.
    split; [done|]. rewrite length_app. split; lia.
Qed.

Lemma ticks_conserve_witness :
  let w := {| agent := Agent_init; environment := env33 |} in
  let w' := {| agent := {| position := (2, 2); task_completed := 1;
                           completed_tasks := [1]; path := [];
                           moving := false; cumulative_cost := 4 |};
               environment := set_tasks env33 [] |} in
  sublist (task_locations (environment w')) (task_locations (environment w))
  /\ (exists ids, completed_tasks (agent w') = completed_tasks (agent w) ++ ids
        /\ (length (task_locations (environment w')) + length ids
            = length (task_locations (environment w)))%nat
        /\ task_completed (agent w')
           = task_completed (agent w) + Z.of_nat (length ids))
  /\ cumulative_cost (agent w) <= cumulative_cost (agent w')
     <= cumulative_cost (agent w) + Z.of_nat 6.
Proof.
  intros w w'. apply (ticks_conserve "A*" 6 w w').
  vm_compute. reflexivity.
Defined.
